(** * form: decoding url.Values into Go values

    A shallow embedding of the decoder of package [form] (decoder.go):
    the error types and their rendering, the [Decoder] configuration and
    its setters, the pool of scratch contexts and [Decode] itself.

    [Decode] hands the work to [traverseStruct] and [setFieldByType], which
    are defined in another file of the package, as are the struct cache
    and the collection of indices. [Decode] is therefore embedded over an
    arbitrary pair of traversal functions (Section [Decoding]); the
    traversal itself is then modelled from the design document (Module
    [Traverser]) and plugged in. *)

From Stdlib Require Import ZArith NArith String Ascii List Bool Lia DecimalString.
From stdpp Require Import base option list gmap strings fin_maps.

#[local] Set Warnings "-register-all".
#[local] Open Scope string_scope.

(** ** Strings *)

(** Go strings are byte sequences; [string] is a list of bytes as well. *)

Definition nl : string := String (ascii_of_nat 10) EmptyString.

(** The string of the bytes [l]. *)
Definition bytes (l : list N) : string :=
  fold_right (fun n s => String (ascii_of_N n) s) EmptyString l.

(** [utf8.EncodeRune] for the runes below U+10000 that are no surrogates:
    one byte below U+0080, two below U+0800, three from there on. *)
Definition EncodeRune (r : N) : string :=
  if (r <? 128)%N then bytes [r]
  else if (r <? 2048)%N then bytes [192 + r / 64; 128 + r mod 64]%N
  else bytes [224 + r / 4096; 128 + (r / 64) mod 64; 128 + r mod 64]%N.

(** The runes [unicode.IsSpace] holds of: tab to carriage return, space,
    U+0085 and U+00A0 in Latin-1, and the rest of the White_Space property:
    U+1680, U+2000 to U+200A, U+2028, U+2029, U+202F, U+205F, U+3000. *)
Definition spaceTable : list N :=
  [9; 10; 11; 12; 13; 32; 133; 160; 5760;
   8192; 8193; 8194; 8195; 8196; 8197; 8198; 8199; 8200; 8201; 8202;
   8232; 8233; 8239; 8287; 12288]%N.

(** The white space runes as they stand in a string, in UTF-8. *)
Definition spaceRunes : list string := EncodeRune <$> spaceTable.

(** The rest of [s] after the prefix [p], if [s] begins with [p]. *)
Fixpoint CutPrefix (p s : string) : option string :=
  match p, s with
  | EmptyString, _ => Some s
  | String a p', String b s' => if Ascii.eqb a b then CutPrefix p' s' else None
  | _, _ => None
  end.

(** The rest of [s] after the first of the strings [ps] it begins with. *)
Fixpoint cutAny (ps : list string) (s : string) : option string :=
  match ps with
  | [] => None
  | p :: ps' =>
      match CutPrefix p s with
      | Some r => Some r
      | None => cutAny ps' s
      end
  end.

(** The rest of [s] after the white space rune it begins with. Decoding
    yields a white space rune exactly at the encoding of one: bytes that
    are not valid UTF-8 decode to U+FFFD, which is no white space. *)
Definition cutSpace (s : string) : option string := cutAny spaceRunes s.

Fixpoint trimLeftN (n : nat) (s : string) : string :=
  match n with
  | O => s
  | S n' =>
      match cutSpace s with
      | Some r => trimLeftN n' r
      | None => s
      end
  end.

(** [strings.TrimLeftFunc(s, unicode.IsSpace)]: [s] from its first rune
    that is no white space. *)
Definition TrimLeft (s : string) : string := trimLeftN (String.length s) s.

(** Is [s] made of white space runes only? *)
Definition allSpace (s : string) : bool :=
  match TrimLeft s with
  | EmptyString => true
  | _ => false
  end.

(** [strings.TrimRightFunc(s, unicode.IsSpace)]: [s] up to its last rune
    that is no white space, which is the shortest prefix of [s] with
    nothing but white space runes behind it (no encoding of a white space
    rune ends in the encoding of another, so cutting them off the end one
    by one stops there). *)
Fixpoint TrimRight (s : string) : string :=
  match s with
  | EmptyString => EmptyString
  | String c s' => if allSpace s then EmptyString else String c (TrimRight s')
  end.

(** [strings.TrimSpace]. *)
Definition TrimSpace (s : string) : string := TrimRight (TrimLeft s).

(** The first and the last byte of a string, if any. *)
Definition firstByte (s : string) : option ascii :=
  match s with
  | String c _ => Some c
  | EmptyString => None
  end.

Fixpoint lastByte (s : string) : option ascii :=
  match s with
  | EmptyString => None
  | String c EmptyString => Some c
  | String _ s' => lastByte s'
  end.

(** [strings.Join]. *)
Fixpoint Join (elems : list string) (sep : string) : string :=
  match elems with
  | [] => ""
  | [e] => e
  | e :: rest => e +:+ sep +:+ Join rest sep
  end.

(** White space: a sequence of white space runes. *)
Inductive whiteSpace : string -> Prop :=
| whiteSpace_nil : whiteSpace ""
| whiteSpace_cons p s : p ∈ spaceRunes -> whiteSpace s -> whiteSpace (p +:+ s).

(** Is [c] the first byte of a white space rune? The last byte of one? *)
Definition startsSpace (c : ascii) : bool :=
  existsb (fun p => bool_decide (firstByte p = Some c)) spaceRunes.
Definition endsSpace (c : ascii) : bool :=
  existsb (fun p => bool_decide (lastByte p = Some c)) spaceRunes.

(** ** reflect: kinds, types and values *)

Module reflect.
Inductive Kind :=
| Invalid | Int | String | Struct | Slice | Array | Map | Ptr | Interface.

#[global] Instance Kind_eq_dec : EqDecision Kind.
Proof. solve_decision. Defined.
End reflect.

(** Modelled from the spec: the field descriptor of the struct cache
    (cache.go), what the decoder keeps of one field of a record type: its
    external name, the depth at which flattening found it, whether it
    comes from an anonymous embedding, and whether its name collides with
    a sibling's. Its kind is that of the type it is paired with. *)
Record FieldDescriptor := mkFieldDescriptor {
  name : string;
  depth : nat;
  isAnonymous : bool;
  ambiguous : bool;
}.

#[global] Instance FieldDescriptor_eq_dec : EqDecision FieldDescriptor.
Proof. solve_decision. Defined.

(** [reflect.Type]. A struct type carries the ordered field descriptors
    that the struct cache of the decoder holds for it (its cache entry);
    an array type carries its length. *)
Inductive rtype :=
| TInt
| TString
| TInterface (tname : string)
| TStruct (tname : string) (entry : list (FieldDescriptor * rtype))
| TSlice (elem : rtype)
| TMap (key : rtype) (elem : rtype)
| TPtr (elem : rtype)
| TArray (len : nat) (elem : rtype).

Definition Kind (t : rtype) : reflect.Kind :=
  match t with
  | TInt => reflect.Int
  | TString => reflect.String
  | TInterface _ => reflect.Interface
  | TStruct _ _ => reflect.Struct
  | TSlice _ => reflect.Slice
  | TMap _ _ => reflect.Map
  | TPtr _ => reflect.Ptr
  | TArray _ _ => reflect.Array
  end.

(** [Type.String()]. *)
Fixpoint TypeString (t : rtype) : string :=
  match t with
  | TInt => "int"
  | TString => "string"
  | TInterface n => n
  | TStruct n _ => n
  | TSlice e => "[]" +:+ TypeString e
  | TMap k e => "map[" +:+ TypeString k +:+ "]" +:+ TypeString e
  | TPtr e => "*" +:+ TypeString e
  | TArray n e => "[" +:+ NilZero.string_of_uint (Nat.to_uint n) +:+ "]" +:+ TypeString e
  end.

(** Type identity. *)
Fixpoint rtype_eqb (a b : rtype) {struct a} : bool :=
  match a, b with
  | TInt, TInt => true
  | TString, TString => true
  | TInterface n, TInterface m => bool_decide (n = m)
  | TStruct n fs, TStruct m gs =>
      bool_decide (n = m) &&
      (fix fields (fs gs : list (FieldDescriptor * rtype)) {struct fs} : bool :=
         match fs, gs with
         | [], [] => true
         | (f, t) :: fs', (g, u) :: gs' =>
             bool_decide (f = g) && rtype_eqb t u && fields fs' gs'
         | _, _ => false
         end) fs gs
  | TSlice e, TSlice e' => rtype_eqb e e'
  | TMap k e, TMap k' e' => rtype_eqb k k' && rtype_eqb e e'
  | TPtr e, TPtr e' => rtype_eqb e e'
  | TArray n e, TArray m e' => Nat.eqb n m && rtype_eqb e e'
  | _, _ => false
  end.

(** The number of type constructors of a type. *)
Fixpoint tsize (t : rtype) : nat :=
  match t with
  | TInt | TString | TInterface _ => 1
  | TStruct _ entry =>
      S ((fix fields (fs : list (FieldDescriptor * rtype)) : nat :=
            match fs with
            | [] => 0
            | (_, ft) :: fs' => (tsize ft + fields fs')%nat
            end) entry)
  | TSlice e => S (tsize e)
  | TMap k e => S (tsize k + tsize e)
  | TPtr e => S (tsize e)
  | TArray _ e => S (tsize e)
  end.

(** Go values. The value of a record holds one slot per field descriptor
    of its type, in the order of the descriptors. *)
Inductive value :=
| VInt (z : Z)
| VString (s : string)
| VNil
| VStruct (slots : list value)
| VSlice (elems : list value)
| VMap (entries : list (value * value))
| VPtr (pointee : option value)
| VArray (elems : list value).

(** The zero value of a type. *)
Fixpoint zero (t : rtype) : value :=
  match t with
  | TInt => VInt 0
  | TString => VString ""
  | TInterface _ => VNil
  | TStruct _ entry => VStruct (map (fun p => zero (snd p)) entry)
  | TSlice _ => VSlice []
  | TMap _ _ => VMap []
  | TPtr _ => VPtr None
  | TArray n e => VArray (replicate n (zero e))
  end.

(** [interface{}]: nil, or a dynamic type with a value of it. *)
Definition iface : Type := option (rtype * value).

(** [reflect.Value]; the zero Value (of kind Invalid) is [None]. *)
Definition Value : Type := option (rtype * value).

Definition ValueOf (v : iface) : Value := v.
Definition TypeOf (v : iface) : option rtype := fst <$> v.

Definition Value_Kind (val : Value) : reflect.Kind :=
  match val with
  | None => reflect.Invalid
  | Some (t, _) => Kind t
  end.

Definition Value_IsNil (val : Value) : bool :=
  match val with
  | Some (_, VPtr None) => true
  | _ => false
  end.

Definition Value_Elem (val : Value) : Value :=
  match val with
  | Some (TPtr t, VPtr (Some x)) => Some (t, x)
  | _ => None
  end.

(** ** Errors *)

(** [DecodeErrors]: a map from the path of a field to the message of the
    error met there. *)
Abbreviation DecodeErrors := (gmap string string).

Section Rendering.
(** The string constants [blank], [fieldNS] and [errorText] that [Error]
    writes; they are declared in another file of the package. *)
Variables blank fieldNS errorText : string.

(** One pass of the loop body of [DecodeErrors.Error] on the buffer. *)
Definition writeEntry (buff : string) (e : string * string) : string :=
  buff +:+ fieldNS +:+ fst e +:+ errorText +:+ snd e +:+ nl.

(** [DecodeErrors.Error] when [range d] yields the entries in [order]. *)
Definition renderIn (order : list (string * string)) : string :=
  TrimSpace (fold_left writeEntry order blank).

(** [DecodeErrors.Error]: Go leaves the order of [range] over a map
    open, so every order of the entries is a possible run. *)
Definition DecodeErrors_Error (d : DecodeErrors) (out : string) : Prop :=
  exists order, order ≡ₚ map_to_list d /\ out = renderIn order.

(** The line of one entry, without its line feed. *)
Definition entryLine (e : string * string) : string :=
  fieldNS +:+ fst e +:+ errorText +:+ snd e.
End Rendering.

Record InvalidDecoderError := mkInvalidDecoderError {
  Type_ : option rtype;
}.

Definition InvalidDecoderError_Error (e : InvalidDecoderError) : string :=
  match Type_ e with
  | None => "form: Decode(nil)"
  | Some t =>
      if negb (bool_decide (Kind t = reflect.Ptr))
      then "form: Decode(non-pointer " +:+ TypeString t +:+ ")"
      else "form: Decode(nil " +:+ TypeString t +:+ ")"
  end.

(** The values of type [error] that [Decode] returns. *)
Inductive error :=
| ErrInvalidDecoder (e : InvalidDecoderError)
| ErrDecode (d : DecodeErrors).

(** ** Index records *)

Record key := mkKey {
  ivalue : Z;
  value_ : string;
  searchValue : string;
}.

Record recursiveData := mkRecursiveData {
  alias : string;
  sliceLen : Z;
  keys : list key;
}.

Abbreviation dataMap := (list recursiveData).

(** ** The decoder and its scratch contexts *)

(** [Mode], [TagNameFunc] and the struct cache are declared in other files
    of the package; they are taken as [NewDecoder] and the setters use
    them. *)
Inductive Mode := ModeImplicit | ModeExplicit.

(** [reflect.StructField], as far as naming looks at it. *)
Record StructField := mkStructField {
  Name : string;
  Tag : list (string * string);
  Anonymous : bool;
  FieldType : rtype;
}.

Definition TagNameFunc : Type := StructField -> string.

Record structCacheMap := mkStructCacheMap {
  tagFn : option TagNameFunc;
}.

Definition newStructCacheMap : structCacheMap := mkStructCacheMap None.

(** [url.Values]. *)
Abbreviation Values := (gmap string (list string)).

(** The identity of a Go map handed over by the caller, and the store of
    the maps behind those identities. *)
Abbreviation loc := positive.
Abbreviation sinkStore := (gmap loc (gmap string value)).

Definition defaultMaxArraySize : Z := 10000.

(** [int(size)] for [size : uint], both 64 bits wide. *)
Definition int_of_uint (size : Z) : Z :=
  if (size <? 2 ^ 63)%Z then size else (size - 2 ^ 64)%Z.

Section Decoding.
Context {Arg : Type} `{Inhabited Arg}.

Definition DecodeFunc : Type := string -> Arg -> value * option string.

(** The scratch context ([decoder]), with the fields that [NewDecoder]
    and [Decode] read and write; its back pointer [d] to the [Decoder] is
    passed alongside instead. *)
Record decoder := mkDecoder {
  namespace : string;
  values : Values;
  decodeFuncArgument : Arg;
  dm : dataMap;
  dmDone : bool;
  errs : option DecodeErrors;
  goValues : option loc;
}.

Record Decoder := mkDecoderCfg {
  tagName : string;
  mode : Mode;
  structCache : structCacheMap;
  customTypeFuncs : option (rtype -> option DecodeFunc);
  maxArraySize : Z;
  dataPool : list decoder;
  namespacePrefix : string;
  namespaceSuffix : string;
}.

(** The [New] function of the pool. *)
Definition newContext : decoder :=
  mkDecoder "" ∅ inhabitant [] false None None.

Definition NewDecoder : Decoder :=
  mkDecoderCfg "form" ModeImplicit newStructCacheMap None
               defaultMaxArraySize [] "." "".

Definition SetTagName (d : Decoder) (tagName' : string) : Decoder :=
  mkDecoderCfg tagName' (mode d) (structCache d) (customTypeFuncs d)
               (maxArraySize d) (dataPool d) (namespacePrefix d)
               (namespaceSuffix d).

Definition SetMode (d : Decoder) (mode' : Mode) : Decoder :=
  mkDecoderCfg (tagName d) mode' (structCache d) (customTypeFuncs d)
               (maxArraySize d) (dataPool d) (namespacePrefix d)
               (namespaceSuffix d).

Definition SetNamespacePrefix (d : Decoder) (p : string) : Decoder :=
  mkDecoderCfg (tagName d) (mode d) (structCache d) (customTypeFuncs d)
               (maxArraySize d) (dataPool d) p (namespaceSuffix d).

Definition SetNamespaceSuffix (d : Decoder) (s : string) : Decoder :=
  mkDecoderCfg (tagName d) (mode d) (structCache d) (customTypeFuncs d)
               (maxArraySize d) (dataPool d) (namespacePrefix d) s.

Definition SetMaxArraySize (d : Decoder) (size : Z) : Decoder :=
  mkDecoderCfg (tagName d) (mode d) (structCache d) (customTypeFuncs d)
               (int_of_uint size) (dataPool d) (namespacePrefix d)
               (namespaceSuffix d).

Definition RegisterTagNameFunc (d : Decoder) (fn : TagNameFunc) : Decoder :=
  mkDecoderCfg (tagName d) (mode d) (mkStructCacheMap (Some fn))
               (customTypeFuncs d) (maxArraySize d) (dataPool d)
               (namespacePrefix d) (namespaceSuffix d).

(** [m[t] = fn] on a map keyed by types. *)
Definition setFunc (m : rtype -> option DecodeFunc) (t : rtype) (fn : DecodeFunc)
  : rtype -> option DecodeFunc :=
  fun u => if rtype_eqb t u then Some fn else m u.

Definition RegisterFunc (d : Decoder) (fn : DecodeFunc) (types : list rtype) : Decoder :=
  let m0 := match customTypeFuncs d with
            | None => fun _ => None
            | Some m => m
            end in
  let m := fold_left (fun m t => setFunc m t fn) types m0 in
  mkDecoderCfg (tagName d) (mode d) (structCache d) (Some m)
               (maxArraySize d) (dataPool d) (namespacePrefix d)
               (namespaceSuffix d).

(** [d.customTypeFuncs[t]], reading a nil map as empty. *)
Definition customTypeFunc (d : Decoder) (t : rtype) : option DecodeFunc :=
  customTypeFuncs d ≫= fun m => m t.

Definition withPool (d : Decoder) (pool : list decoder) : Decoder :=
  mkDecoderCfg (tagName d) (mode d) (structCache d) (customTypeFuncs d)
               (maxArraySize d) pool (namespacePrefix d) (namespaceSuffix d).

(** [sync.Pool]. [Get] hands out any pooled context or a new one; which
    one is not for the caller to know, so the choice [pick] is an input:
    [Some i] takes the [i]-th pooled context, [None] (or an [i] out of
    range) calls [New]. *)
Definition Pool_Get (pool : list decoder) (pick : option nat) : decoder * list decoder :=
  match pick ≫= fun i => (fun x => (x, delete i pool)) <$> pool !! i with
  | Some r => r
  | None => (newContext, pool)
  end.

Definition Pool_Put (pool : list decoder) (x : decoder) : list decoder := x :: pool.

(** The traversal, defined in another file of the package. Both functions
    work on the context [dec] of the decoder [d], may write to the maps
    of the store, and return the new target value. *)
Variable traverseStruct :
  Decoder -> decoder -> sinkStore -> value -> rtype -> string ->
  decoder * sinkStore * value.
Variable setFieldByType :
  Decoder -> decoder -> sinkStore -> rtype * value -> bool -> string -> Z ->
  decoder * sinkStore * value.
(** [timeType], declared next to them. *)
Variable timeType : rtype.

Record outcome := mkOutcome {
  out_err : option error;
  out_decoder : Decoder;
  out_store : sinkStore;
  out_target : iface;
}.

(** [Decode], lines 167-170: the context taken from the pool, with the
    inputs of this call stored in it and [dm] cut to length 0. *)
Definition acquire (d : Decoder) (pick : option nat) (vals : Values) (argument : Arg)
  : decoder * list decoder :=
  let '(dec, pool) := Pool_Get (dataPool d) pick in
  (mkDecoder (namespace dec) vals argument (take 0 (dm dec)) (dmDone dec)
             (errs dec) (goValues dec), pool).

(** Does [Decode] take the struct branch for a target element of type
    [typ]? *)
Definition structTarget (typ : rtype) : bool :=
  bool_decide (Kind typ = reflect.Struct) && negb (rtype_eqb typ timeType).

(** Lines 175-177: [dec.goValues = collectGoValues[0]] when a sink was
    passed. *)
Definition attach (dec : decoder) (collectGoValues : list (option loc)) : decoder :=
  match collectGoValues with
  | g :: _ => mkDecoder (namespace dec) (values dec) (decodeFuncArgument dec)
                        (dm dec) (dmDone dec) (errs dec) g
  | [] => dec
  end.

(** The context handed to the traversal. *)
Definition prepared (d : Decoder) (pick : option nat) (typ : rtype) (vals : Values)
           (argument : Arg) (collectGoValues : list (option loc)) : decoder :=
  let dec := fst (acquire d pick vals argument) in
  if structTarget typ then attach dec collectGoValues else dec.

(** Lines 172-182: the traversal of the target element. *)
Definition traversed (d : Decoder) (w : sinkStore) (pick : option nat)
           (typ : rtype) (val : value) (vals : Values) (argument : Arg)
           (collectGoValues : list (option loc)) : decoder * sinkStore * value :=
  let dec := prepared d pick typ vals argument collectGoValues in
  if structTarget typ
  then traverseStruct d dec w val typ (substring 0 0 (namespace dec))
  else setFieldByType d dec w (typ, val) false (substring 0 0 (namespace dec)) 0%Z.

(** [len(dec.errs)]. *)
Definition lenErrs (e : option DecodeErrors) : nat :=
  match e with
  | None => 0
  | Some m => size m
  end.

(** Lines 184-191: the error to return, and the context as it is put
    back. *)
Definition release (dec : decoder) : option error * decoder :=
  let '(err, errs') :=
    match errs dec with
    | Some m => if (0 <? size m)%nat then (Some (ErrDecode m), None) else (None, errs dec)
    | None => (None, errs dec)
    end in
  (err, mkDecoder (namespace dec) (values dec) (decodeFuncArgument dec)
                  (dm dec) false errs' (goValues dec)).

Definition Decode (d : Decoder) (w : sinkStore) (pick : option nat) (v : iface)
           (vals : Values) (argument : Arg) (collectGoValues : list (option loc))
  : outcome :=
  let val := ValueOf v in
  if negb (bool_decide (Value_Kind val = reflect.Ptr)) || Value_IsNil val
  then mkOutcome (Some (ErrInvalidDecoder (mkInvalidDecoderError (TypeOf v)))) d w v
  else
    match Value_Elem val with
    | Some (typ, e) =>
        let pool := snd (acquire d pick vals argument) in
        let '(dec, w', e') := traversed d w pick typ e vals argument collectGoValues in
        let '(err, dec') := release dec in
        mkOutcome err (withPool d (Pool_Put pool dec')) w' (Some (TPtr typ, VPtr (Some e')))
    | None => mkOutcome None d w v
    end.
End Decoding.

(** ** The traversal, modelled from the design *)

Module Traverser.
Section Model.
Context {Arg : Type} `{Inhabited Arg}.

(** Modelled from the spec: the conversion of a string to a value of a
    primitive kind (strconv and the helpers around it), which the design
    treats as a black box: a typed value or an error. *)
Variable convert : reflect.Kind -> string -> value + string.

(** *** Field metadata cache (the marking pass of the struct cache) *)

(** Modelled from the spec: two descriptors collide (the ambiguity test
    of the struct cache): same external name at the same depth. *)
Definition sameSlot (a b : FieldDescriptor) : bool :=
  bool_decide (name a = name b) && bool_decide (depth a = depth b).

(** Modelled from the spec: does a descriptor collide with a sibling in
    the entry (itself apart)? *)
Definition collides (l : list (FieldDescriptor * rtype)) (fd : FieldDescriptor) : bool :=
  Nat.leb 2 (length (filter (fun p => sameSlot fd (fst p) = true) l)).

(** Modelled from the spec: the marking pass of the struct cache: a field
    whose resolved name collides with a sibling's at the same flattening
    depth is marked ambiguous. *)
Definition markAmbiguous (l : list (FieldDescriptor * rtype))
  : list (FieldDescriptor * rtype) :=
  map (fun p => (mkFieldDescriptor (name (fst p)) (depth (fst p))
                                   (isAnonymous (fst p)) (collides l (fst p)),
                 snd p)) l.

(** *** Path builder *)

(** Modelled from the spec: the namespace a field is visited under (built
    in traverseStruct): the path of a field under the path [ns] of its
    record: the bare name at the top, and below it the name between the
    namespace prefix (the joining dot by default) and suffix. *)
Definition fieldPath (d : Decoder (Arg:=Arg)) (ns fname : string) : string :=
  match ns with
  | EmptyString => fname
  | _ => ns +:+ namespacePrefix d +:+ fname +:+ namespaceSuffix d
  end.

(** Modelled from the spec: the namespace of an element (built in
    setFieldByType): the path [prefix[index]]. *)
Definition indexPath (ns tok : string) : string := ns +:+ "[" +:+ tok +:+ "]".

(** *** Index collector (parseMapData and findAlias) *)

(** Modelled from the spec: the tokens parseMapData takes for numeric are
    the non-empty strings of decimal digits. *)
Definition isDigit (c : ascii) : bool :=
  let n := nat_of_ascii c in Nat.leb 48 n && Nat.leb n 57.

Fixpoint allDigits (s : string) : bool :=
  match s with
  | EmptyString => true
  | String c s' => isDigit c && allDigits s'
  end.

Fixpoint decimal (acc : Z) (s : string) : Z :=
  match s with
  | EmptyString => acc
  | String c s' => decimal (10 * acc + (Z.of_nat (nat_of_ascii c) - 48))%Z s'
  end.

(** Modelled from the spec: the integer value parseMapData gives a numeric
    token; [-1] stands for any other token. *)
Definition tokenValue (tok : string) : Z :=
  match tok with
  | EmptyString => (-1)%Z
  | _ => if allDigits tok then decimal 0 tok else (-1)%Z
  end.

(** Modelled from the spec: the rest of a key after a prefix (the scan of
    parseMapData). *)
Fixpoint stripPrefix (p s : string) : option string :=
  match p, s with
  | EmptyString, _ => Some s
  | String a p', String b s' => if bool_decide (a = b) then stripPrefix p' s' else None
  | _, _ => None
  end.

(** Modelled from the spec: the bytes before the first closing bracket, if
    there is one (the scan of parseMapData). *)
Fixpoint upToBracket (s : string) : option string :=
  match s with
  | EmptyString => None
  | String c s' =>
      if bool_decide (c = "]"%char) then Some EmptyString
      else String c <$> upToBracket s'
  end.

(** Modelled from the spec: the bracketed token parseMapData takes from a
    key that begins with [prefix ++ "["], up to the closing bracket. *)
Definition tokenOf (prefix k : string) : option string :=
  stripPrefix (prefix +:+ "[") k ≫= upToBracket.

(** The largest [int]. *)
Definition maxInt : Z := (2 ^ 63 - 1)%Z.

(** Modelled from the spec: the sizing of parseMapData, [n + 1],
    saturating at the largest [int]. *)
Definition satSucc (n : Z) : Z := Z.min (n + 1) maxInt.

(** Modelled from the spec: what parseMapData does with one token of an
    alias: record it, unless it is there already. Numeric tokens size the
    collection: one more than the largest index. *)
Definition addKey (rd : recursiveData) (tok : string) : recursiveData :=
  if existsb (fun k => bool_decide (value_ k = tok)) (keys rd) then rd
  else
    let i := tokenValue tok in
    mkRecursiveData (alias rd)
      (if (0 <=? i)%Z then Z.max (sliceLen rd) (satSucc i) else sliceLen rd)
      (keys rd ++ [mkKey i tok (indexPath (alias rd) tok)]).

(** Modelled from the spec: the index record parseMapData builds for
    [prefix] over all keys of the input mapping. *)
Definition indicesFor (allKeys : list string) (prefix : string) : recursiveData :=
  fold_left (fun rd k => match tokenOf prefix k with
                         | Some tok => addKey rd tok
                         | None => rd
                         end)
            allKeys (mkRecursiveData prefix 0 []).

(** Modelled from the spec: findAlias, the index record already held for
    an alias. *)
Definition findAlias (m : dataMap) (a : string) : option recursiveData :=
  find (fun rd => bool_decide (alias rd = a)) m.

(** *** Traversal state *)

(** Modelled from the spec: the state setFieldByType and traverseStruct
    work on: the scratch context, the store of the maps of the caller,
    and a log of the calls of custom functions (the type called for, the
    path and the raw string). The log is not state of the program; it is
    there to state which custom functions ran. *)
Record tstate := mkTstate {
  ctx : decoder (Arg:=Arg);
  store : sinkStore;
  calls : list (rtype * string * string);
}.

Definition withCtx (st : tstate) (c : decoder (Arg:=Arg)) : tstate :=
  mkTstate c (store st) (calls st).

(** Modelled from the spec: setError, which records a field-level error
    under the current path. *)
Definition setError (ns msg : string) (st : tstate) : tstate :=
  let c := ctx st in
  withCtx st (mkDecoder (namespace c) (values c) (decodeFuncArgument c) (dm c)
                        (dmDone c) (Some (<[ns := msg]> (default ∅ (errs c))))
                        (goValues c)).

(** Modelled from the spec: the mirroring of an assigned leaf value into
    the sink (in setFieldByType), when the context holds one. *)
Definition mirror (ns : string) (val : value) (st : tstate) : tstate :=
  match goValues (ctx st) with
  | Some l => mkTstate (ctx st)
                       (<[l := <[ns := val]> (default ∅ (store st !! l))]> (store st))
                       (calls st)
  | None => st
  end.

(** Modelled from the spec: parseMapData appends the record of an alias
    to [dm]. *)
Definition remember (rd : recursiveData) (st : tstate) : tstate :=
  let c := ctx st in
  withCtx st (mkDecoder (namespace c) (values c) (decodeFuncArgument c)
                        (dm c ++ [rd]) (dmDone c) (errs c) (goValues c)).

(** Add a call of a custom function to the log. *)
Definition logCall (t : rtype) (ns raw : string) (st : tstate) : tstate :=
  mkTstate (ctx st) (store st) ((t, ns, raw) :: calls st).

(** Modelled from the spec: index discovery for a path (findAlias, then
    parseMapData), reusing the record of a path already resolved in this
    decode call. *)
Definition resolveIndices (ns : string) (st : tstate) : recursiveData * tstate :=
  match findAlias (dm (ctx st)) ns with
  | Some rd => (rd, st)
  | None =>
      let rd := indicesFor (fst <$> map_to_list (values (ctx st))) ns in
      (rd, remember rd st)
  end.

(** Modelled from the spec: the lookup of the current path in the input
    mapping (in setFieldByType): the first value of the entry. *)
Definition lookupValue (st : tstate) (ns : string) : option string :=
  values (ctx st) !! ns ≫= head.

(** *** Structural traverser (setFieldByType and traverseStruct) *)

(** Modelled from the spec: the message of the error for an index at or
    beyond the bound; the design does not give its text. *)
Definition errArraySize : string := "array size exceeds the maximum".

(** One step of the traversal on one value: the new value, the new state
    and whether something was set. *)
Definition visitor : Type := value -> tstate -> value * tstate * bool.

(** Modelled from the spec: the call of a custom function in
    setFieldByType; the function owns the assignment: its result is
    assigned and mirrored, its error is recorded for the path. *)
Definition applyCustom (t : rtype) (fn : DecodeFunc (Arg:=Arg)) (raw ns : string)
  : visitor :=
  fun v st =>
    let st1 := logCall t ns raw st in
    match fn raw (decodeFuncArgument (ctx st)) with
    | (val, None) => (val, mirror ns val st1, true)
    | (_, Some e) => (v, setError ns e st1, false)
    end.

(** Modelled from the spec: the test setFieldByType starts with: is a
    custom function registered for the type, and does the input mapping
    hold a value under the very path? *)
Definition custom (d : Decoder (Arg:=Arg)) (t : rtype) (ns : string) (st : tstate)
  : option (DecodeFunc (Arg:=Arg) * string) :=
  match customTypeFunc d t, lookupValue st ns with
  | Some fn, Some raw => Some (fn, raw)
  | _, _ => None
  end.

(** Modelled from the spec: setFieldByType at a scalar kind without a
    custom function: look the path up in the input mapping; absent, the
    value stays; present, the primitive conversion is applied; a failure
    is recorded for the path. *)
Definition setScalar (t : rtype) (ns : string) : visitor :=
  fun v st =>
    match lookupValue st ns with
    | None => (v, st, false)
    | Some raw =>
        match convert (Kind t) raw with
        | inl val => (val, mirror ns val st, true)
        | inr e => (v, setError ns e st, false)
        end
    end.

(** Modelled from the spec: the loop of traverseStruct: visit the slot of
    every descriptor that is not ambiguous, in order. *)
Fixpoint traverseFields (visit : FieldDescriptor -> rtype -> visitor)
         (entry : list (FieldDescriptor * rtype)) (slots : list value) (st : tstate)
  : list value * tstate * bool :=
  match entry, slots with
  | (fd, ft) :: entry', slot :: slots' =>
      let '(slot', st1, s1) :=
        if ambiguous fd then (slot, st, false) else visit fd ft slot st in
      let '(rest, st2, s2) := traverseFields visit entry' slots' st1 in
      (slot' :: rest, st2, s1 || s2)
  | _, _ => (slots, st, false)
  end.

(** Modelled from the spec: the bound check of setFieldByType: does an
    index record hold a numeric index at or beyond the bound? *)
Definition boundExceeded (d : Decoder (Arg:=Arg)) (rd : recursiveData) : bool :=
  existsb (fun k => (0 <=? ivalue k)%Z && (maxArraySize d <=? ivalue k)%Z) (keys rd).

(** Modelled from the spec: the growth of a slice in setFieldByType: [xs]
    grown with [x] to the length [n]. *)
Definition grow (n : nat) (x : value) (xs : list value) : list value :=
  xs ++ replicate (n - length xs) x.

(** Modelled from the spec: setFieldByType at a slice or an array, once
    it is sized: for each discovered index, visit the element at that
    index. *)
Fixpoint eachIndex (visit : key -> visitor) (ks : list key) (xs : list value)
         (st : tstate) : list value * tstate * bool :=
  match ks with
  | [] => (xs, st, false)
  | k :: ks' =>
      if (0 <=? ivalue k)%Z then
        let i := Z.to_nat (ivalue k) in
        match xs !! i with
        | Some x =>
            let '(x', st1, s1) := visit k x st in
            let '(xs', st2, s2) := eachIndex visit ks' (<[i := x']> xs) st1 in
            (xs', st2, s1 || s2)
        | None => eachIndex visit ks' xs st
        end
      else eachIndex visit ks' xs st
  end.

(** Modelled from the spec: the equality of map keys (the map assignment
    of setFieldByType); keys are of primitive kind. *)
Definition keyEqb (a b : value) : bool :=
  match a, b with
  | VInt x, VInt y => bool_decide (x = y)
  | VString x, VString y => bool_decide (x = y)
  | _, _ => false
  end.

(** Modelled from the spec: [m[k] = x], the map assignment of
    setFieldByType. *)
Fixpoint mapInsert (k x : value) (m : list (value * value)) : list (value * value) :=
  match m with
  | [] => [(k, x)]
  | (k', x') :: m' => if keyEqb k k' then (k, x) :: m' else (k', x') :: mapInsert k x m'
  end.

(** Modelled from the spec: the key of a map for a token: the token
    itself for string keys, its primitive conversion for other kinds. *)
Definition parseKey (kt : rtype) (tok : string) : value + string :=
  match kt with
  | TString => inl (VString tok)
  | _ => convert (Kind kt) tok
  end.

(** Modelled from the spec: setFieldByType at a map: for each discovered
    key, visit a fresh element and insert it under the parsed key. *)
Fixpoint eachKey (visit : key -> visitor) (kt : rtype) (fresh : value) (ks : list key)
         (m : list (value * value)) (st : tstate)
  : list (value * value) * tstate * bool :=
  match ks with
  | [] => (m, st, false)
  | k :: ks' =>
      let '(x', st1, _) := visit k fresh st in
      match parseKey kt (value_ k) with
      | inl kv =>
          let '(m', st2, _) := eachKey visit kt fresh ks' (mapInsert kv x' m) st1 in
          (m', st2, true)
      | inr e => eachKey visit kt fresh ks' m (setError (searchValue k) e st1)
      end
  end.

(** Modelled from the spec: the kinds the design calls scalar, the ones
    the primitive conversion serves (the scalar case of setFieldByType). *)
Definition scalar (t : rtype) : bool :=
  match t with
  | TInt | TString => true
  | _ => false
  end.

(** Modelled from the spec: the elements of a slice or an array value
    (what setFieldByType copies before it sets elements); a nil slice has
    none. *)
Definition elemsOf (v : value) : list value :=
  match v with
  | VSlice xs | VArray xs => xs
  | _ => []
  end.

(** Modelled from the spec: the values a slice or array of scalars is
    given without brackets (the lookup of setFieldByType): all the values
    of the entry under the very path of the field. *)
Definition valuesAt (e : rtype) (ns : string) (st : tstate) : list string :=
  if scalar e then default [] (values (ctx st) !! ns) else [].

(** Modelled from the spec: one of those values set into an element (the
    scalar case of setFieldByType at a value index): by the custom
    function of the element type, if there is one, otherwise by the
    primitive conversion; a failure is recorded for the path and leaves
    the element as it is. *)
Definition setElement (d : Decoder (Arg:=Arg)) (e : rtype) (ns raw : string) : visitor :=
  fun v st =>
    match customTypeFunc d e with
    | Some fn => applyCustom e fn raw ns v st
    | None =>
        match convert (Kind e) raw with
        | inl val => (val, mirror ns val st, true)
        | inr err => (v, setError ns err st, false)
        end
    end.

(** Modelled from the spec: the loop of setFieldByType over the values
    given without brackets: the values go, in order, into the elements
    from index [i] on; values for which no element is left are ignored. *)
Fixpoint eachValue (visit : string -> visitor) (raws : list string) (i : nat)
         (xs : list value) (st : tstate) : list value * tstate * bool :=
  match raws with
  | [] => (xs, st, false)
  | raw :: raws' =>
      match xs !! i with
      | Some x =>
          let '(x', st1, s1) := visit raw x st in
          let '(xs', st2, s2) := eachValue visit raws' (S i) (<[i := x']> xs) st1 in
          (xs', st2, s1 || s2)
      | None => (xs, st, false)
      end
  end.

(** Modelled from the spec: the first step of setFieldByType at a slice or
    an array: the field addressed without brackets. A slice of scalars is
    extended by one element per value of the entry under its path; an
    array of scalars takes the values from its index 0 on, as far as it
    reaches. Without such values nothing changes. *)
Definition direct (d : Decoder (Arg:=Arg)) (t : rtype) (ns : string) : visitor :=
  fun v st =>
    match t with
    | TSlice e =>
        match valuesAt e ns st with
        | [] => (v, st, false)
        | raws =>
            let xs := elemsOf v in
            let '(xs', st', set) :=
              eachValue (setElement d e ns) raws (length xs)
                        (xs ++ replicate (length raws) (zero e)) st in
            (VSlice xs', st', set)
        end
    | TArray _ e =>
        match valuesAt e ns st with
        | [] => (v, st, false)
        | raws =>
            let '(xs', st', set) :=
              eachValue (setElement d e ns) raws 0 (elemsOf v) st in
            (VArray xs', st', set)
        end
    | _ => (v, st, false)
    end.

(** Modelled from the spec: setFieldByType, the traverser. Where the path
    is the key of a value of the input mapping and a custom function is
    registered for the type, the function owns the assignment; otherwise
    the traverser goes by the kind of the target. A slice or an array
    first takes the values given without brackets, then the elements that
    index discovery finds; an index at or beyond the bound is an error for
    the path and ends the visit of the collection there. A slice grows to
    the discovered size; an array has its length, and an index beyond it
    addresses no element. *)
Fixpoint setFieldByType (d : Decoder (Arg:=Arg)) (t : rtype) (ns : string)
         (v : value) (st : tstate) {struct t} : value * tstate * bool :=
  match custom d t ns st with
  | Some (fn, raw) => applyCustom t fn raw ns v st
  | None =>
      match t with
      | TInt | TString => setScalar t ns v st
      | TInterface _ => (v, st, false)
      | TStruct _ entry =>
          match v with
          | VStruct slots =>
              let '(slots', st', set) :=
                traverseFields
                  (fun fd ft => setFieldByType d ft (fieldPath d ns (name fd)))
                  entry slots st in
              (VStruct slots', st', set)
          | _ => (v, st, false)
          end
      | TSlice e =>
          let '(v1, st0, set0) := direct d (TSlice e) ns v st in
          let '(rd, st1) := resolveIndices ns st0 in
          match keys rd with
          | [] => (v1, st1, set0)
          | _ =>
              if boundExceeded d rd then (v1, setError ns errArraySize st1, set0)
              else
                let '(xs', st2, set) :=
                  eachIndex (fun k => setFieldByType d e (searchValue k)) (keys rd)
                            (grow (Z.to_nat (sliceLen rd)) (zero e) (elemsOf v1)) st1 in
                (VSlice xs', st2, set0 || set)
          end
      | TArray n e =>
          let '(v1, st0, set0) := direct d (TArray n e) ns v st in
          let '(rd, st1) := resolveIndices ns st0 in
          match keys rd with
          | [] => (v1, st1, set0)
          | _ =>
              if boundExceeded d rd then (v1, setError ns errArraySize st1, set0)
              else
                let '(xs', st2, set) :=
                  eachIndex (fun k => setFieldByType d e (searchValue k)) (keys rd)
                            (elemsOf v1) st1 in
                (VArray xs', st2, set0 || set)
          end
      | TMap kt e =>
          let '(rd, st1) := resolveIndices ns st in
          match keys rd with
          | [] => (v, st1, false)
          | _ =>
              let m := match v with VMap m => m | _ => [] end in
              let '(m', st2, set) :=
                eachKey (fun k => setFieldByType d e (searchValue k)) kt (zero e)
                        (keys rd) m st1 in
              (VMap m', st2, set)
          end
      | TPtr e =>
          let x := match v with VPtr (Some x) => x | _ => zero e end in
          let '(x', st', set) := setFieldByType d e ns x st in
          (if set then VPtr (Some x') else v, st', set)
      end
  end.

(** Modelled from the spec: traverseStruct, the traversal of the record
    the decode call starts from; no custom function is looked up for the
    target itself. *)
Definition traverseRecord (d : Decoder (Arg:=Arg)) (t : rtype) (ns : string) : visitor :=
  fun v st =>
    match t, v with
    | TStruct _ entry, VStruct slots =>
        let '(slots', st', set) :=
          traverseFields
            (fun fd ft => setFieldByType d ft (fieldPath d ns (name fd)))
            entry slots st in
        (VStruct slots', st', set)
    | _, _ => (v, st, false)
    end.

(** Modelled from the spec: traverseStruct and setFieldByType in the shape
    [Decode] calls them. The flag and the value index of [setFieldByType]
    have no rule in the design and are not looked at. *)
Definition traverseStruct (d : Decoder (Arg:=Arg)) (dec : decoder (Arg:=Arg))
           (w : sinkStore) (val : value) (typ : rtype) (ns : string)
  : decoder (Arg:=Arg) * sinkStore * value :=
  let '(v', st, _) := traverseRecord d typ ns val (mkTstate dec w []) in
  (ctx st, store st, v').

(** Modelled from the spec: setFieldByType as [Decode] calls it. *)
Definition setFieldByType_entry (d : Decoder (Arg:=Arg)) (dec : decoder (Arg:=Arg))
           (w : sinkStore) (tv : rtype * value) (flag : bool) (ns : string) (idx : Z)
  : decoder (Arg:=Arg) * sinkStore * value :=
  let '(v', st, _) := setFieldByType d (fst tv) ns (snd tv) (mkTstate dec w []) in
  (ctx st, store st, v').

(** Modelled from the spec: timeType, the type [time.Time], of struct
    kind, without fields that take form data. *)
Definition timeType : rtype := TStruct "time.Time" [].

(** [Decode] over the modelled traversal. *)
Definition DecodeM : Decoder (Arg:=Arg) -> sinkStore -> option nat -> iface ->
                     Values -> Arg -> list (option loc) -> outcome (Arg:=Arg) :=
  Decode traverseStruct setFieldByType_entry timeType.
End Model.
End Traverser.

(** ** Notions the properties are stated with *)

Section Notions.
Context {Arg : Type} `{Inhabited Arg}.

(** No pooled context carries errors over. *)
Definition pool_clean (d : Decoder (Arg:=Arg)) : Prop :=
  Forall (fun dec => lenErrs (errs dec) = 0%nat) (dataPool d).

(** The target [&x] for a variable [x] of type [typ] holding [val]. *)
Definition pointerTo (typ : rtype) (val : value) : iface :=
  Some (TPtr typ, VPtr (Some val)).
End Notions.

(** An instance of the primitive conversion, for strings and decimal
    integers. *)
Definition simpleConvert (k : reflect.Kind) (s : string) : value + string :=
  match k with
  | reflect.String => inl (VString s)
  | reflect.Int =>
      match s with
      | EmptyString => inr "invalid syntax"
      | _ => if Traverser.allDigits s then inl (VInt (Traverser.decimal 0 s))
             else inr "invalid syntax"
      end
  | _ => inr "unsupported kind"
  end.

(** A field descriptor for a plain named field at depth 0. *)
Definition plain (n : string) : FieldDescriptor := mkFieldDescriptor n 0 false false.

Section TraversalNotions.
Context {Arg : Type} `{Inhabited Arg}.

(** The keys of the input mapping of a state. *)
Definition keysOf (st : Traverser.tstate (Arg:=Arg)) : list string :=
  fst <$> map_to_list (values (Traverser.ctx st)).

(** Every index record the context holds is the one index discovery
    computes for its alias. *)
Definition dm_ok (st : Traverser.tstate (Arg:=Arg)) : Prop :=
  forall rd, rd ∈ dm (Traverser.ctx st) ->
             rd = Traverser.indicesFor (keysOf st) (alias rd).

(** [st'] comes after [st] in a traversal: the inputs of the call are the
    same, the context holds the same sink, errors recorded stay recorded,
    and the index records stay right. *)
Definition extends (st st' : Traverser.tstate (Arg:=Arg)) : Prop :=
  values (Traverser.ctx st') = values (Traverser.ctx st) /\
  decodeFuncArgument (Traverser.ctx st') = decodeFuncArgument (Traverser.ctx st) /\
  goValues (Traverser.ctx st') = goValues (Traverser.ctx st) /\
  (forall k, is_Some (default ∅ (errs (Traverser.ctx st)) !! k) ->
             is_Some (default ∅ (errs (Traverser.ctx st')) !! k)) /\
  (dm_ok st -> dm_ok st').

(** The calls logged in [st'] are those of [st] or calls for types of
    size at most [n]. *)
Definition callsWithin (n : nat) (st st' : Traverser.tstate (Arg:=Arg)) : Prop :=
  forall c, c ∈ Traverser.calls st' ->
            c ∈ Traverser.calls st \/ (tsize (fst (fst c)) <= n)%nat.

(** [st'] comes after [st] in a traversal that holds the same sink and
    has written to no other map of the store. *)
Definition sinkFramed (st st' : Traverser.tstate (Arg:=Arg)) : Prop :=
  goValues (Traverser.ctx st') = goValues (Traverser.ctx st) /\
  forall l, goValues (Traverser.ctx st) <> Some l ->
            Traverser.store st' !! l = Traverser.store st !! l.

(** Does a custom function own the value of type [t] at the path [ns]: is
    one registered for the type, and does the mapping hold a value under
    the very path? *)
Definition owned (d : Decoder (Arg:=Arg)) (vals : Values) (t : rtype) (ns : string)
  : bool :=
  bool_decide (is_Some (customTypeFunc d t)) && bool_decide (is_Some (vals !! ns ≫= head)).

(** The field a path of positions in cache entries leads to, from a value
    [v] of type [t] at the path [ns]: its type, its path and its value.
    Every step goes from a record to one of its fields; the field must
    not be ambiguous, and no custom function may own it, so that the
    traversal comes to it and goes by its kind. *)
Fixpoint reached (d : Decoder (Arg:=Arg)) (vals : Values) (t : rtype) (ns : string)
         (v : value) (path : list nat) : option (rtype * string * value) :=
  match path with
  | [] => Some (t, ns, v)
  | i :: path' =>
      match t, v with
      | TStruct _ entry, VStruct slots =>
          match entry !! i, slots !! i with
          | Some (fd, ft), Some s =>
              let ns' := Traverser.fieldPath d ns (name fd) in
              if ambiguous fd || owned d vals ft ns' then None
              else reached d vals ft ns' s path'
          | _, _ => None
          end
      | _, _ => None
      end
  end.
End TraversalNotions.

(** Every key of an index record holds the value of its token. *)
Definition keysValued (rd : recursiveData) : Prop :=
  forall key, key ∈ keys rd -> ivalue key = Traverser.tokenValue (value_ key).

(** The index record sizes the collection right: no smaller than one more
    than any numeric index, and, unless it is 0, one more than one of
    them. *)
Definition sized (rd : recursiveData) : Prop :=
  (forall key, key ∈ keys rd -> (0 <= ivalue key)%Z ->
               (Traverser.satSucc (ivalue key) <= sliceLen rd)%Z) /\
  (sliceLen rd = 0%Z \/
   exists key, key ∈ keys rd /\ (0 <= ivalue key)%Z /\
               sliceLen rd = Traverser.satSucc (ivalue key)).

(** ** Sample data *)

(** [struct { A []string }]. *)
Definition sampleA : rtype := TStruct "S" [(plain "A", TSlice TString)].

(** [struct { Tags [2]string }] and [struct { Item struct { Tags [2]string }; B string }]. *)
Definition sampleItem : rtype := TStruct "Item" [(plain "Tags", TArray 2 TString)].
Definition sampleOrder : rtype :=
  TStruct "Order" [(plain "Item", sampleItem); (plain "B", TString)].

(** [struct { A []string; B string }]. *)
Definition sampleAB : rtype :=
  TStruct "S" [(plain "A", TSlice TString); (plain "B", TString)].

(** [struct { Name string }]. *)
Definition sampleUser : rtype := TStruct "User" [(plain "Name", TString)].

(** A record in which two fields resolve to the name [Field] at depth 0,
    before the cache marks them. *)
Definition sampleTwice : list (FieldDescriptor * rtype) :=
  [(plain "Field", TString); (plain "Field", TString); (plain "Other", TString)].

(** A custom function for [sampleUser] that keeps the raw string. *)
Definition sampleFunc : DecodeFunc (Arg:=unit) :=
  fun raw _ => (VStruct [VString raw], None).

(** ** Further notions *)

Section MoreNotions.
Context {Arg : Type} `{Inhabited Arg}.

(** Every pooled context is ready for a call: it carries no errors and
    its [dmDone] flag is down. *)
Definition pool_ready (d : Decoder (Arg:=Arg)) : Prop :=
  Forall (fun dec => lenErrs (errs dec) = 0%nat /\ dmDone dec = false) (dataPool d).

Variable traverseStruct :
  Decoder (Arg:=Arg) -> decoder (Arg:=Arg) -> sinkStore -> value -> rtype -> string ->
  decoder (Arg:=Arg) * sinkStore * value.
Variable setFieldByType :
  Decoder (Arg:=Arg) -> decoder (Arg:=Arg) -> sinkStore -> rtype * value -> bool ->
  string -> Z -> decoder (Arg:=Arg) * sinkStore * value.
Variable timeType : rtype.

(** The decoders a program can hold: [NewDecoder], and what the setters,
    the registrations and [Decode] make of such a decoder, with any
    arguments and any choice of the pool. *)
Inductive reachable : Decoder (Arg:=Arg) -> Prop :=
| reach_NewDecoder : reachable NewDecoder
| reach_SetTagName d s : reachable d -> reachable (SetTagName d s)
| reach_SetMode d m : reachable d -> reachable (SetMode d m)
| reach_SetNamespacePrefix d s : reachable d -> reachable (SetNamespacePrefix d s)
| reach_SetNamespaceSuffix d s : reachable d -> reachable (SetNamespaceSuffix d s)
| reach_SetMaxArraySize d n : reachable d -> reachable (SetMaxArraySize d n)
| reach_RegisterTagNameFunc d fn : reachable d -> reachable (RegisterTagNameFunc d fn)
| reach_RegisterFunc d fn types : reachable d -> reachable (RegisterFunc d fn types)
| reach_Decode d w pick v vals argument collectGoValues :
    reachable d ->
    reachable (out_decoder (Decode traverseStruct setFieldByType timeType d w pick v vals
                                   argument collectGoValues)).
End MoreNotions.

(** * Properties *)

(** ** Strings *)

Lemma append_cons (c : ascii) (s t : string) : String c s +:+ t = String c (s +:+ t).
Proof. reflexivity. Qed.

Lemma append_nil_r (s : string) : s +:+ "" = s.
Proof. induction s as [|c s IH]; [reflexivity|]. by rewrite append_cons, IH. Qed.

Lemma append_assoc (s t u : string) : (s +:+ t) +:+ u = s +:+ t +:+ u.
Proof. induction s as [|c s IH]; [reflexivity|]. by rewrite !append_cons, IH. Qed.

Lemma append_length (s t : string) :
  String.length (s +:+ t) = (String.length s + String.length t)%nat.
Proof. induction s as [|c s IH]; [reflexivity|]. rewrite append_cons. cbn. by rewrite IH. Qed.

Lemma append_nil_inv (s t : string) : s +:+ t = "" -> s = "" /\ t = "".
Proof. destruct s; [by intros <-|discriminate]. Qed.

Lemma CutPrefix_Some (p s r : string) : CutPrefix p s = Some r <-> s = p +:+ r.
Proof.
  revert s. induction p as [|a p IH]; intros s.
  - cbn. split; [by intros [= ->] | by intros ->].
  - destruct s as [|b s]; cbn; [split; discriminate|].
    destruct (Ascii.eqb_spec a b) as [->|Hne].
    + rewrite IH. split; [by intros -> | by intros [= ->]].
    + split; [discriminate | by intros [= <-]].
Qed.

Lemma cutAny_Some (ps : list string) (s r : string) :
  cutAny ps s = Some r -> exists p, p ∈ ps /\ s = p +:+ r.
Proof.
  induction ps as [|p ps IH]; [discriminate|]. cbn.
  destruct (CutPrefix p s) as [r'|] eqn:E.
  - intros [= ->]. exists p. split; [by left | by apply CutPrefix_Some].
  - intros (q & Hq & Hs)%IH. exists q. split; [by right | done].
Qed.

Lemma cutAny_None (ps : list string) (s : string) :
  cutAny ps s = None -> forall p r, p ∈ ps -> s <> p +:+ r.
Proof.
  induction ps as [|q ps IH]; intros Hnone p r Hp.
  - by apply elem_of_nil in Hp.
  - cbn in Hnone. destruct (CutPrefix q s) as [r'|] eqn:E; [discriminate|].
    apply elem_of_cons in Hp as [->|Hp]; [|by apply IH].
    intros Hs. apply CutPrefix_Some in Hs. congruence.
Qed.

(** The white space runes, byte by byte. *)
Lemma spaceRunes_eq :
  spaceRunes =
  bytes <$> [[9]; [10]; [11]; [12]; [13]; [32]; [194; 133]; [194; 160]; [225; 154; 128];
             [226; 128; 128]; [226; 128; 129]; [226; 128; 130]; [226; 128; 131];
             [226; 128; 132]; [226; 128; 133]; [226; 128; 134]; [226; 128; 135];
             [226; 128; 136]; [226; 128; 137]; [226; 128; 138]; [226; 128; 168];
             [226; 128; 169]; [226; 128; 175]; [226; 129; 159]; [227; 128; 128]]%N.
Proof. vm_compute. reflexivity. Qed.

(** A property of strings that holds of every white space rune by
    evaluation. *)
Lemma spaceRunes_all (P : string -> bool) :
  forallb P spaceRunes = true -> forall p, p ∈ spaceRunes -> P p = true.
Proof.
  intros Hall p Hp. rewrite forallb_forall in Hall. apply Hall. by apply list_elem_of_In.
Qed.

Lemma spaceRunes_nonempty (p : string) : p ∈ spaceRunes -> p <> "".
Proof.
  intros Hp ->.
  pose proof (spaceRunes_all (fun p => negb (bool_decide (p = ""))) eq_refl "" Hp).
  done.
Qed.

(** No white space rune begins with another: a string that begins with one
    is cut after it. *)
Lemma cutSpace_rune (p s : string) : p ∈ spaceRunes -> cutSpace (p +:+ s) = Some s.
Proof.
  unfold cutSpace. rewrite spaceRunes_eq. intros Hp.
  repeat (apply elem_of_cons in Hp as [->|Hp]; [vm_compute; reflexivity|]).
  by apply elem_of_nil in Hp.
Qed.

Lemma cutSpace_Some (s r : string) :
  cutSpace s = Some r <-> exists p, p ∈ spaceRunes /\ s = p +:+ r.
Proof.
  split; [apply cutAny_Some|]. intros (p & Hp & ->). by apply cutSpace_rune.
Qed.

Lemma cutSpace_shorter (s r : string) :
  cutSpace s = Some r -> (String.length r < String.length s)%nat.
Proof.
  intros (p & Hp & ->)%cutSpace_Some. rewrite append_length.
  pose proof (spaceRunes_nonempty p Hp). destruct p; [done|]. cbn. lia.
Qed.

Lemma cutSpace_empty : cutSpace "" = None.
Proof. vm_compute. reflexivity. Qed.

Lemma trimLeftN_enough (n m : nat) (s : string) :
  (String.length s <= n)%nat -> (String.length s <= m)%nat ->
  trimLeftN n s = trimLeftN m s.
Proof.
  revert m s. induction n as [|n IH]; intros m s Hn Hm.
  - destruct s; [|cbn in Hn; lia]. destruct m; [done|].
    cbn [trimLeftN]. by rewrite cutSpace_empty.
  - destruct m as [|m].
    + destruct s; [|cbn in Hm; lia]. cbn [trimLeftN]. by rewrite cutSpace_empty.
    + cbn [trimLeftN]. destruct (cutSpace s) as [r|] eqn:E; [|done].
      apply cutSpace_shorter in E. apply IH; lia.
Qed.

Lemma TrimLeft_unfold (s : string) :
  TrimLeft s = match cutSpace s with
               | Some r => TrimLeft r
               | None => s
               end.
Proof.
  unfold TrimLeft. destruct s as [|c s]; [reflexivity|].
  cbn [String.length trimLeftN].
  destruct (cutSpace (String c s)) as [r|] eqn:E; [|done].
  apply cutSpace_shorter in E. cbn in E. apply trimLeftN_enough; lia.
Qed.

(** Induction along the runes [TrimLeft] cuts. *)
Lemma TrimLeft_ind (P : string -> string -> Prop) :
  (forall s, cutSpace s = None -> P s s) ->
  (forall s r t, cutSpace s = Some r -> P r t -> P s t) ->
  forall s, P s (TrimLeft s).
Proof.
  intros Hstop Hcut s.
  remember (String.length s) as n eqn:Hn. revert s Hn.
  induction n as [n IH] using lt_wf_ind. intros s ->.
  rewrite TrimLeft_unfold. destruct (cutSpace s) as [r|] eqn:E; [|by apply Hstop].
  apply (Hcut s r); [done|]. eapply IH; [|reflexivity]. by apply cutSpace_shorter.
Qed.

(** [TrimLeft] takes white space away, and all there is in front. *)
Lemma TrimLeft_decompose (s : string) :
  cutSpace (TrimLeft s) = None /\
  exists w, whiteSpace w /\ s = w +:+ TrimLeft s.
Proof.
  apply (TrimLeft_ind (fun s t => cutSpace t = None /\
                                  exists w, whiteSpace w /\ s = w +:+ t)); clear s.
  - intros s Hs. split; [done|]. exists "". split; [constructor | done].
  - intros s r t (p & Hp & ->)%cutSpace_Some (Ht & w & Hw & ->). split; [done|].
    exists (p +:+ w). split; [by constructor | by rewrite append_assoc].
Qed.

Lemma TrimLeft_whiteSpace (w s : string) : whiteSpace w -> TrimLeft (w +:+ s) = TrimLeft s.
Proof.
  induction 1 as [|p w Hp Hw IH]; [done|].
  by rewrite append_assoc, TrimLeft_unfold, (cutSpace_rune p _ Hp).
Qed.

Lemma allSpace_whiteSpace (s : string) : allSpace s = true <-> whiteSpace s.
Proof.
  unfold allSpace. split.
  - intros Hs. destruct (TrimLeft_decompose s) as (_ & w & Hw & Heq).
    destruct (TrimLeft s); [|done]. by rewrite Heq, append_nil_r.
  - intros Hw. rewrite <- (append_nil_r s), (TrimLeft_whiteSpace s "" Hw). reflexivity.
Qed.

(** [TrimRight] takes white space away, and all there is at the end. *)
Lemma TrimRight_decompose (s : string) :
  exists w, whiteSpace w /\ s = TrimRight s +:+ w.
Proof.
  induction s as [|c s (w & Hw & IH)].
  - exists "". split; [constructor | done].
  - cbn [TrimRight]. destruct (allSpace (String c s)) eqn:E.
    + exists (String c s). split; [by apply allSpace_whiteSpace | done].
    + exists w. split; [done|]. by rewrite append_cons, <- IH.
Qed.

Lemma TrimRight_end (s r p : string) : p ∈ spaceRunes -> TrimRight s <> r +:+ p.
Proof.
  intros Hp. revert r. induction s as [|c s IH]; intros r.
  - cbn. intros [_ ->]%eq_sym%append_nil_inv. by apply spaceRunes_nonempty in Hp.
  - pose proof (TrimRight_decompose (String c s)) as (w & Hw & Hs). revert Hs.
    cbn [TrimRight]. destruct (allSpace (String c s)) eqn:E.
    + intros _ [_ ->]%eq_sym%append_nil_inv. by apply spaceRunes_nonempty in Hp.
    + intros Hs Heq. destruct r as [|c' r].
      * cbn in Heq. rewrite Heq in Hs.
        assert (allSpace (String c s) = true) as E'; [|congruence].
        apply allSpace_whiteSpace. rewrite Hs. by constructor.
      * rewrite append_cons in Heq. injection Heq as _ Heq. by apply IH in Heq.
Qed.

Lemma TrimRight_start (s : string) : cutSpace s = None -> cutSpace (TrimRight s) = None.
Proof.
  intros Hs. destruct (cutSpace (TrimRight s)) as [r|] eqn:E; [|done].
  apply cutSpace_Some in E as (p & Hp & Heq).
  destruct (TrimRight_decompose s) as (w & _ & Hw).
  rewrite Heq, append_assoc in Hw. rewrite Hw, (cutSpace_rune p _ Hp) in Hs. done.
Qed.

(** What [TrimSpace] takes away is white space in front and white space
    at the end, and it leaves none at either end. *)
Lemma TrimSpace_spec (s : string) :
  (exists lead trail, whiteSpace lead /\ whiteSpace trail /\
                      s = lead +:+ TrimSpace s +:+ trail) /\
  (forall p r, p ∈ spaceRunes -> TrimSpace s <> p +:+ r) /\
  (forall p r, p ∈ spaceRunes -> TrimSpace s <> r +:+ p).
Proof.
  unfold TrimSpace. destruct (TrimLeft_decompose s) as (Hnone & lead & Hlead & Hs).
  destruct (TrimRight_decompose (TrimLeft s)) as (trail & Htrail & Ht).
  split; [|split].
  - exists lead, trail. split; [done|]. split; [done|]. by rewrite <- Ht.
  - intros p r Hp. by apply (cutAny_None spaceRunes _ (TrimRight_start _ Hnone)).
  - intros p r Hp. by apply TrimRight_end.
Qed.

(** *** A line feed at the end *)

Lemma append_nl_split (s p r : string) :
  s +:+ nl = p +:+ r -> (exists q, s = p +:+ q) \/ (p = s +:+ nl /\ r = "").
Proof.
  revert p. induction s as [|c s IH]; intros p Heq.
  - destruct p as [|a p]; [left; by exists ""|]. right.
    cbn in Heq. injection Heq as <- Heq. symmetry in Heq.
    apply append_nil_inv in Heq as [-> ->]. done.
  - destruct p as [|a p]; [left; by eexists|].
    rewrite !append_cons in Heq. injection Heq as <- Heq.
    destruct (IH p Heq) as [[q ->] | [-> ->]]; [left; by exists q | by right].
Qed.

Lemma cutSpace_nl (s : string) :
  s <> "" -> cutSpace (s +:+ nl) = (fun r => r +:+ nl) <$> cutSpace s.
Proof.
  intros Hs. destruct (cutSpace s) as [r|] eqn:E.
  - apply cutSpace_Some in E as (p & Hp & ->). rewrite append_assoc.
    by rewrite (cutSpace_rune p _ Hp).
  - destruct (cutSpace (s +:+ nl)) as [r'|] eqn:E'; [|done].
    apply cutSpace_Some in E' as (p & Hp & Heq).
    destruct (append_nl_split s p r' Heq) as [[q ->] | [-> _]].
    + by destruct (cutAny_None spaceRunes _ E p q Hp).
    + pose proof (spaceRunes_all
        (fun p => bool_decide (lastByte p = Some (ascii_of_nat 10) -> p = nl)) eq_refl
        _ Hp) as Hlast.
      apply bool_decide_eq_true in Hlast.
      assert (lastByte (s +:+ nl) = Some (ascii_of_nat 10)) as Hl.
      { clear. induction s as [|c s IH]; [done|]. rewrite append_cons.
        destruct (s +:+ nl) eqn:E; [by destruct s | exact IH]. }
      specialize (Hlast Hl). destruct s as [|c [|c' s]]; done.
Qed.

Lemma TrimLeft_nl (s : string) :
  TrimLeft (s +:+ nl) = match TrimLeft s with
                        | EmptyString => EmptyString
                        | String c r => String c r +:+ nl
                        end.
Proof.
  apply (TrimLeft_ind (fun s t => TrimLeft (s +:+ nl) =
                                  match t with
                                  | EmptyString => EmptyString
                                  | String c r => String c r +:+ nl
                                  end));
    clear s.
  - intros [|c s] Hs; [reflexivity|].
    rewrite TrimLeft_unfold, cutSpace_nl, Hs by done. reflexivity.
  - intros s r t Hs IH. rewrite TrimLeft_unfold, cutSpace_nl, Hs.
    + exact IH.
    + intros ->. discriminate.
Qed.

Lemma allSpace_nl (s : string) : allSpace (s +:+ nl) = allSpace s.
Proof. unfold allSpace. rewrite TrimLeft_nl. by destruct (TrimLeft s). Qed.

Lemma TrimRight_nl (s : string) : TrimRight (s +:+ nl) = TrimRight s.
Proof.
  induction s as [|c s IH]; [reflexivity|].
  rewrite append_cons. cbn [TrimRight]. rewrite <- append_cons, allSpace_nl.
  by rewrite IH.
Qed.

Lemma TrimSpace_nl (s : string) : TrimSpace (s +:+ nl) = TrimSpace s.
Proof.
  unfold TrimSpace. rewrite TrimLeft_nl.
  destruct (TrimLeft s) as [|c r]; [reflexivity|]. apply TrimRight_nl.
Qed.

Lemma fold_writeEntry (fieldNS errorText : string) (order : list (string * string))
      (buff : string) :
  fold_left (writeEntry fieldNS errorText) order buff =
  buff +:+ fold_right (fun e acc => entryLine fieldNS errorText e +:+ nl +:+ acc) "" order.
Proof.
  revert buff. induction order as [|e order IH]; intros buff; cbn [fold_left fold_right].
  - by rewrite append_nil_r.
  - rewrite IH. unfold writeEntry, entryLine. by rewrite !append_assoc.
Qed.

Lemma lines_Join (fieldNS errorText : string) (order : list (string * string)) :
  order <> [] ->
  fold_right (fun e acc => entryLine fieldNS errorText e +:+ nl +:+ acc) "" order =
  Join (entryLine fieldNS errorText <$> order) nl +:+ nl.
Proof.
  induction order as [|e order IH]; [done|]. intros _.
  destruct order as [|e' order].
  - cbn. reflexivity.
  - specialize (IH ltac:(done)).
    remember (e' :: order) as l eqn:El.
    cbn [fold_right]. rewrite IH. subst l.
    change (Join (entryLine fieldNS errorText <$> e :: e' :: order) nl)
      with (entryLine fieldNS errorText e +:+ nl +:+
            Join (entryLine fieldNS errorText <$> e' :: order) nl).
    by rewrite !append_assoc.
Qed.

(** C8. Rendering a composite error that is not empty, along any order in
    which the map may be ranged over: there is one line per entry (the
    path of the field between the two constants, then the message of its
    error), the lines are joined by line feeds after the leading constant,
    and the result is that text trimmed: what is missing of it is white
    space in front and white space at the end, and the result neither
    begins nor ends with a white space rune. *)
Theorem DecodeErrors_Error_lines (blank fieldNS errorText : string)
        (d : DecodeErrors) (out : string) :
  d <> ∅ ->
  DecodeErrors_Error blank fieldNS errorText d out ->
  exists (order : list (string * string)) (lead trail : string),
    order ≡ₚ map_to_list d /\
    length order = size d /\
    (forall k e, d !! k = Some e <-> (k, e) ∈ order) /\
    out = TrimSpace (blank +:+ Join (entryLine fieldNS errorText <$> order) nl) /\
    blank +:+ Join (entryLine fieldNS errorText <$> order) nl = lead +:+ out +:+ trail /\
    whiteSpace lead /\ whiteSpace trail /\
    (forall p r, p ∈ spaceRunes -> out <> p +:+ r) /\
    (forall p r, p ∈ spaceRunes -> out <> r +:+ p).
Proof.
  intros Hne (order & Hperm & ->).
  assert (order <> []) as Hord.
  { intros ->. apply Permutation_nil_l in Hperm. symmetry in Hperm.
    by apply map_to_list_empty_iff in Hperm. }
  assert (renderIn blank fieldNS errorText order =
          TrimSpace (blank +:+ Join (entryLine fieldNS errorText <$> order) nl)) as Hout.
  { unfold renderIn. rewrite fold_writeEntry, lines_Join by done.
    by rewrite <- append_assoc, TrimSpace_nl. }
  destruct (TrimSpace_spec (blank +:+ Join (entryLine fieldNS errorText <$> order) nl))
    as ((lead & trail & Hlead & Htrail & Heq) & Hstart & Hend).
  rewrite <- Hout in Heq, Hstart, Hend.
  exists order, lead, trail. repeat split; try done.
  - by rewrite Hperm, length_map_to_list.
  - intros Hk. rewrite Hperm. by apply elem_of_map_to_list.
  - rewrite Hperm. by intros ?%elem_of_map_to_list.
Qed.

(** ** Types *)

Lemma rtype_ind' (P : rtype -> Prop) :
  P TInt -> P TString -> (forall n, P (TInterface n)) ->
  (forall n entry, Forall (fun p => P (snd p)) entry -> P (TStruct n entry)) ->
  (forall e, P e -> P (TSlice e)) ->
  (forall k e, P k -> P e -> P (TMap k e)) ->
  (forall e, P e -> P (TPtr e)) ->
  (forall n e, P e -> P (TArray n e)) ->
  forall t, P t.
Proof.
  intros Hi Hs Hf Hr Hl Hm Hp Ha.
  fix F 1. intros [ | |n|n entry|e|k e|e|n e].
  - exact Hi.
  - exact Hs.
  - apply Hf.
  - apply Hr. induction entry as [|[fd ft] entry IH]; constructor; [apply F | exact IH].
  - apply Hl, F.
  - apply Hm; apply F.
  - apply Hp, F.
  - apply Ha, F.
Qed.

Lemma rtype_eqb_eq (a b : rtype) : rtype_eqb a b = true <-> a = b.
Proof.
  revert b. induction a as [ | |n|n entry IH|e IH|k e IHk IHe|e IH|n e IH] using rtype_ind';
    intros b; destruct b as [ | |m|m gs|e'|k' e'|e'|m e']; cbn [rtype_eqb];
    try (split; [discriminate | discriminate]); try (split; reflexivity).
  - rewrite bool_decide_eq_true. split; congruence.
  - rewrite andb_true_iff, bool_decide_eq_true.
    set (fields := fix fields (fs gs : list (FieldDescriptor * rtype)) {struct fs} : bool :=
           match fs, gs with
           | [], [] => true
           | (f, t) :: fs', (g, u) :: gs' =>
               bool_decide (f = g) && rtype_eqb t u && fields fs' gs'
           | _, _ => false
           end).
    assert (forall gs, fields entry gs = true <-> entry = gs) as Hfields.
    { clear gs. induction IH as [|[f t] fs Ht _ IHfs]; intros [|[g u] gs]; cbn;
        try (split; [discriminate | discriminate]); try (split; reflexivity).
      rewrite !andb_true_iff, bool_decide_eq_true, IHfs. cbn in Ht. rewrite Ht.
      split; [intros [[-> ->] ->]; reflexivity | intros [= -> -> ->]; done]. }
    rewrite Hfields. split; [intros [-> ->]; reflexivity | intros [= -> ->]; done].
  - rewrite IH. split; congruence.
  - rewrite andb_true_iff, IHk, IHe. split; [intros [-> ->]; reflexivity | intros [= -> ->]; done].
  - rewrite IH. split; congruence.
  - rewrite andb_true_iff, Nat.eqb_eq, IH.
    split; [intros [-> ->]; reflexivity | intros [= -> ->]; done].
Qed.

Lemma rtype_eqb_refl (a : rtype) : rtype_eqb a a = true.
Proof. by apply rtype_eqb_eq. Qed.

(** ** The errors of an invalid target *)

(** C9. The message of an invalid-target error has three forms: for no
    type at all, for a type that is not a pointer, and for a pointer type
    (a nil pointer was passed). *)
Theorem InvalidDecoderError_Error_cases :
  InvalidDecoderError_Error (mkInvalidDecoderError None) = "form: Decode(nil)" /\
  (forall T, Kind T <> reflect.Ptr ->
     InvalidDecoderError_Error (mkInvalidDecoderError (Some T)) =
     "form: Decode(non-pointer " +:+ TypeString T +:+ ")") /\
  (forall T, Kind T = reflect.Ptr ->
     InvalidDecoderError_Error (mkInvalidDecoderError (Some T)) =
     "form: Decode(nil " +:+ TypeString T +:+ ")").
Proof.
  split; [reflexivity|]. split; intros T HT; unfold InvalidDecoderError_Error; cbn [Type_].
  - by rewrite bool_decide_eq_false_2.
  - by rewrite bool_decide_eq_true_2.
Qed.

Lemma InvalidDecoderError_Error_cases_witness :
  InvalidDecoderError_Error (mkInvalidDecoderError (Some (TSlice TInt))) =
    "form: Decode(non-pointer []int)" /\
  InvalidDecoderError_Error (mkInvalidDecoderError (Some (TPtr (TStruct "main.B" [])))) =
    "form: Decode(nil *main.B)".
Proof.
  destruct InvalidDecoderError_Error_cases as (_ & Hnon & Hnil). split.
  - apply (Hnon (TSlice TInt)). discriminate.
  - apply (Hnil (TPtr (TStruct "main.B" []))). reflexivity.
Defined.

(** ** Decode *)

Section DecodeFacts.
Context {Arg : Type} `{Inhabited Arg}.
Variable traverseStruct :
  Decoder (Arg:=Arg) -> decoder (Arg:=Arg) -> sinkStore -> value -> rtype -> string ->
  decoder (Arg:=Arg) * sinkStore * value.
Variable setFieldByType :
  Decoder (Arg:=Arg) -> decoder (Arg:=Arg) -> sinkStore -> rtype * value -> bool ->
  string -> Z -> decoder (Arg:=Arg) * sinkStore * value.
Variable timeType : rtype.

Local Abbreviation Decode' := (Decode traverseStruct setFieldByType timeType).
Local Abbreviation traversed' := (traversed traverseStruct setFieldByType timeType).

(** C2. When the target is not a pointer that points somewhere (it is nil,
    not a pointer, or a nil pointer), [Decode] returns the invalid-target
    error made of the type of the target, whatever the traversal, the
    input mapping, the argument and the sinks are; neither the decoder
    with its pool, nor the store, nor the target change. The message holds
    the name of the type, or [nil] when there is none. *)
Theorem Decode_invalid_target (d : Decoder (Arg:=Arg)) (w : sinkStore)
        (pick : option nat) (v : iface) (vals : Values) (argument : Arg)
        (collectGoValues : list (option loc)) :
  Value_Kind (ValueOf v) <> reflect.Ptr \/ Value_IsNil (ValueOf v) = true ->
  let e := mkInvalidDecoderError (TypeOf v) in
  Decode' d w pick v vals argument collectGoValues =
    mkOutcome (Some (ErrInvalidDecoder e)) d w v /\
  match v with
  | None => InvalidDecoderError_Error e = "form: Decode(nil)"
  | Some (T, _) =>
      InvalidDecoderError_Error e =
      (if bool_decide (Kind T = reflect.Ptr)
       then "form: Decode(nil " else "form: Decode(non-pointer ")
      +:+ TypeString T +:+ ")"
  end.
Proof.
  intros Hinv e. split.
  - unfold Decode.
    destruct Hinv as [Hk | Hn].
    + by rewrite (bool_decide_eq_false_2 _ Hk).
    + rewrite Hn. by rewrite orb_true_r.
  - destruct v as [[T x]|]; [|reflexivity].
    unfold e, InvalidDecoderError_Error. cbn.
    by destruct (bool_decide (Kind T = reflect.Ptr)).
Qed.

Lemma Pool_Get_Forall (P : decoder (Arg:=Arg) -> Prop) (pool : list decoder) (pick : option nat) :
  P newContext -> Forall P pool ->
  P (fst (Pool_Get pool pick)) /\ Forall P (snd (Pool_Get pool pick)).
Proof.
  intros Hnew Hpool. unfold Pool_Get.
  destruct pick as [i|]; cbn; [|done].
  destruct (pool !! i) as [x|] eqn:Hi; cbn; [|done].
  split.
  - by eapply Forall_lookup_1.
  - by apply Forall_delete.
Qed.

Lemma release_errs (dec : decoder (Arg:=Arg)) :
  lenErrs (errs (snd (release dec))) = 0%nat.
Proof.
  unfold release. destruct (errs dec) as [m|] eqn:E; cbn; [|done].
  destruct (size m) eqn:Hm; cbn; [by rewrite Hm | done].
Qed.

Lemma release_err (dec : decoder (Arg:=Arg)) :
  fst (release dec) =
  match errs dec with
  | Some m => if (0 <? size m)%nat then Some (ErrDecode m) else None
  | None => None
  end.
Proof.
  unfold release. destruct (errs dec) as [m|]; [|done].
  by destruct (0 <? size m)%nat.
Qed.

Lemma release_goValues (dec : decoder (Arg:=Arg)) :
  goValues (snd (release dec)) = goValues dec.
Proof.
  unfold release. destruct (errs dec) as [m|]; [|done].
  by destruct (0 <? size m)%nat.
Qed.

Lemma Decode_valid (d : Decoder (Arg:=Arg)) (w : sinkStore) (pick : option nat)
      (typ : rtype) (e : value) (vals : Values) (argument : Arg)
      (collectGoValues : list (option loc)) :
  Decode' d w pick (pointerTo typ e) vals argument collectGoValues =
  let r := traversed' d w pick typ e vals argument collectGoValues in
  let rel := release (fst (fst r)) in
  mkOutcome (fst rel)
            (withPool d (Pool_Put (snd (acquire d pick vals argument)) (snd rel)))
            (snd (fst r)) (pointerTo typ (snd r)).
Proof.
  unfold Decode, pointerTo. cbn.
  destruct (traversed _ _ _ _ _ _ _ _ _ _ _) as [[dec w'] e'].
  cbn. by destruct (release dec).
Qed.

Lemma pool_clean_NewDecoder : pool_clean (NewDecoder (Arg:=Arg)).
Proof. constructor. Qed.

(** C3. With a valid target, and a pool whose contexts carry no errors
    (which is how [NewDecoder] starts and what every [Decode] leaves), the
    context enters the traversal without errors, and [Decode] returns a
    composite error exactly when the traversal has recorded at least one
    error, in which case it returns those errors; otherwise it returns
    nil. *)
Theorem Decode_composite_iff (d : Decoder (Arg:=Arg)) (w : sinkStore)
        (pick : option nat) (typ : rtype) (e : value) (vals : Values)
        (argument : Arg) (collectGoValues : list (option loc)) :
  pool_clean d ->
  let o := Decode' d w pick (pointerTo typ e) vals argument collectGoValues in
  let before := prepared timeType d pick typ vals argument collectGoValues in
  let after := fst (fst (traversed' d w pick typ e vals argument collectGoValues)) in
  lenErrs (errs before) = 0%nat /\
  ((exists m, out_err o = Some (ErrDecode m) /\ errs after = Some m) <->
   (0 < lenErrs (errs after))%nat) /\
  (out_err o = None <-> lenErrs (errs after) = 0%nat) /\
  pool_clean (out_decoder o).
Proof.
  intros Hclean o before after.
  assert (lenErrs (errs (newContext (Arg:=Arg))) = 0%nat) as Hnew by reflexivity.
  destruct (Pool_Get_Forall (fun dec => lenErrs (errs dec) = 0%nat)
              (dataPool d) pick Hnew Hclean) as [Hget Hrest].
  assert (out_err o = fst (release after)) as Herr.
  { unfold o. by rewrite Decode_valid. }
  rewrite Herr, release_err. clear Herr.
  assert (lenErrs (errs before) = 0%nat) as Hbefore.
  { unfold before, prepared, acquire.
    destruct (Pool_Get (dataPool d) pick) as [dec pool]. cbn in *.
    destruct (structTarget timeType typ); [|done].
    by destruct collectGoValues. }
  assert (pool_clean (out_decoder o)) as Hpool.
  { unfold o. rewrite Decode_valid. cbn. unfold pool_clean. cbn.
    unfold Pool_Put. constructor.
    + apply release_errs.
    + unfold acquire. destruct (Pool_Get (dataPool d) pick) as [dec pool]. exact Hrest. }
  split; [exact Hbefore|]. split; [|split; [|exact Hpool]].
  - destruct (errs after) as [m|]; cbn [lenErrs].
    + destruct (0 <? size m)%nat eqn:Hs.
      * apply Nat.ltb_lt in Hs. split; [done|]. intros _. exists m. split; reflexivity.
      * apply Nat.ltb_ge in Hs. split; [by intros (? & ? & _) | intros; lia].
    + split; [by intros (? & ? & ?) | intros; lia].
  - destruct (errs after) as [m|]; cbn [lenErrs]; [|done].
    destruct (0 <? size m)%nat eqn:Hs.
    + apply Nat.ltb_lt in Hs. split; [done|lia].
    + apply Nat.ltb_ge in Hs. split; [lia|done].
Qed.

(** X13. With a valid target, [Decode] takes the struct branch exactly
    when the element is of struct kind and is not [time.Time]. In that
    branch the context handed to [traverseStruct] holds the first sink,
    when one was passed. In the other branch the element goes to
    [setFieldByType] as one value, the context holds whatever sink the
    pool gave it with, and the sinks passed make no difference to what
    [Decode] does: it returns, and leaves the store, as it does without
    them. *)
Theorem Decode_sink_attachment (d : Decoder (Arg:=Arg)) (w : sinkStore)
        (pick : option nat) (typ : rtype) (e : value) (vals : Values)
        (argument : Arg) (collectGoValues : list (option loc)) :
  let picked := fst (Pool_Get (dataPool d) pick) in
  let handed := prepared timeType d pick typ vals argument collectGoValues in
  (structTarget timeType typ = true <->
   Kind typ = reflect.Struct /\ typ <> timeType) /\
  (structTarget timeType typ = true ->
   goValues handed = match collectGoValues with
                     | g :: _ => g
                     | [] => goValues picked
                     end /\
   traversed' d w pick typ e vals argument collectGoValues =
   traverseStruct d handed w e typ "") /\
  (structTarget timeType typ = false ->
   goValues handed = goValues picked /\
   traversed' d w pick typ e vals argument collectGoValues =
   setFieldByType d handed w (typ, e) false "" 0%Z /\
   Decode' d w pick (pointerTo typ e) vals argument collectGoValues =
   Decode' d w pick (pointerTo typ e) vals argument []).
Proof.
  intros picked handed.
  assert (forall s, substring 0 0 s = "") as Hsub by by intros [].
  split; [|split].
  - unfold structTarget. rewrite andb_true_iff, bool_decide_eq_true, negb_true_iff.
    split; intros [Hk Hne]; (split; [exact Hk|]).
    + intros ->. by rewrite rtype_eqb_refl in Hne.
    + destruct (rtype_eqb typ timeType) eqn:E; [|done]. by apply rtype_eqb_eq in E.
  - intros Hs. split.
    + unfold handed, picked, prepared, acquire. rewrite Hs.
      destruct (Pool_Get (dataPool d) pick) as [dec pool]. cbn.
      by destruct collectGoValues.
    + unfold traversed. by rewrite Hs, Hsub.
  - intros Hs. split; [|split].
    + unfold handed, picked, prepared, acquire. rewrite Hs.
      by destruct (Pool_Get (dataPool d) pick) as [dec pool].
    + unfold traversed. by rewrite Hs, Hsub.
    + rewrite !Decode_valid. unfold traversed, prepared. by rewrite Hs.
Qed.
End DecodeFacts.

(** ** The traversal *)

Import Traverser.

Lemma tsize_field (tn : string) (entry : list (FieldDescriptor * rtype))
      (fd : FieldDescriptor) (ft : rtype) :
  (fd, ft) ∈ entry -> (tsize ft < tsize (TStruct tn entry))%nat.
Proof.
  cbn [tsize]. induction entry as [|[fd' ft'] entry IH]; intros Hin.
  - by apply elem_of_nil in Hin.
  - apply elem_of_cons in Hin as [[= <- <-]|Hin]; [lia|].
    specialize (IH Hin). lia.
Qed.

(** A relation between states that every primitive step of the traversal
    respects is respected by the traversal. *)
Section Preservation.
Context {Arg : Type} `{Inhabited Arg}.
Variable convert : reflect.Kind -> string -> value + string.
Variable d : Decoder (Arg:=Arg).
Variable R : tstate (Arg:=Arg) -> tstate (Arg:=Arg) -> Prop.
Variable n : nat.
Hypothesis R_refl : forall st, R st st.
Hypothesis R_trans : forall st1 st2 st3, R st1 st2 -> R st2 st3 -> R st1 st3.
Hypothesis R_setError : forall ns e st, R st (setError ns e st).
Hypothesis R_mirror : forall ns v st, R st (mirror ns v st).
Hypothesis R_remember :
  forall ns st, R st (remember (indicesFor (keysOf st) ns) st).
Hypothesis R_logCall :
  forall t ns raw st, (tsize t <= n)%nat -> R st (logCall t ns raw st).

Lemma applyCustom_R (t : rtype) (fn : DecodeFunc) (raw ns : string) (v : value)
      (st : tstate) :
  (tsize t <= n)%nat -> R st (applyCustom t fn raw ns v st).1.2.
Proof.
  intros Ht. unfold applyCustom.
  destruct (fn raw _) as [val [e|]]; cbn.
  - eapply R_trans; [by apply R_logCall | apply R_setError].
  - eapply R_trans; [by apply R_logCall | apply R_mirror].
Qed.

Lemma setScalar_R (t : rtype) (ns : string) (v : value) (st : tstate) :
  R st (setScalar convert t ns v st).1.2.
Proof.
  unfold setScalar.
  destruct (lookupValue st ns) as [raw|]; [|apply R_refl].
  destruct (convert (Kind t) raw) as [val|e]; cbn; [apply R_mirror | apply R_setError].
Qed.

Lemma setElement_R (e : rtype) (ns raw : string) (v : value) (st : tstate) :
  (tsize e <= n)%nat -> R st (setElement convert d e ns raw v st).1.2.
Proof.
  intros He. unfold setElement.
  destruct (customTypeFunc d e) as [fn|]; [by apply applyCustom_R|].
  destruct (convert (Kind e) raw) as [val|err]; cbn; [apply R_mirror | apply R_setError].
Qed.

Lemma eachValue_R (visit : string -> visitor (Arg:=Arg)) (raws : list string) :
  (forall raw x st, R st (visit raw x st).1.2) ->
  forall i xs st, R st (eachValue visit raws i xs st).1.2.
Proof.
  intros Hvisit. induction raws as [|raw raws IH]; intros i xs st; [apply R_refl|].
  cbn [eachValue]. destruct (xs !! i) as [x|]; [|apply R_refl].
  pose proof (Hvisit raw x st) as H1.
  destruct (visit raw x st) as [[x' st1] s1]. cbn in H1.
  pose proof (IH (S i) (<[i := x']> xs) st1) as H2.
  destruct (eachValue visit raws _ _ st1) as [[xs' st2] s2]. cbn in *.
  by eapply R_trans.
Qed.

Lemma direct_R (t : rtype) (ns : string) (v : value) (st : tstate) :
  (tsize t <= n)%nat -> R st (direct convert d t ns v st).1.2.
Proof.
  intros Ht. unfold direct.
  destruct t as [ | | | |e| | |len e]; try apply R_refl; cbn [tsize] in Ht;
    (destruct (valuesAt e ns st) as [|raw raws] eqn:E; [apply R_refl|]);
    match goal with |- context [eachValue ?f ?rs ?i ?xs st] =>
      pose proof (eachValue_R f rs
                    (fun raw x st' => setElement_R e ns raw x st' ltac:(lia)) i xs st) as H1;
      destruct (eachValue f rs i xs st) as [[xs' st'] set] end;
    exact H1.
Qed.

Lemma resolveIndices_R (ns : string) (st : tstate) : R st (resolveIndices ns st).2.
Proof.
  unfold resolveIndices. destruct (findAlias _ ns); cbn; [apply R_refl | apply R_remember].
Qed.

Lemma traverseFields_R (visit : FieldDescriptor -> rtype -> visitor (Arg:=Arg))
      (entry : list (FieldDescriptor * rtype)) :
  (forall fd ft, (fd, ft) ∈ entry -> forall s st, R st (visit fd ft s st).1.2) ->
  forall slots st, R st (traverseFields visit entry slots st).1.2.
Proof.
  induction entry as [|[fd ft] entry IH]; intros Hvisit slots st; [apply R_refl|].
  destruct slots as [|slot slots]; [apply R_refl|]. cbn [traverseFields].
  assert (R st (if ambiguous fd then (slot, st, false) else visit fd ft slot st).1.2) as H1.
  { destruct (ambiguous fd); [apply R_refl|]. apply Hvisit. by left. }
  destruct (if ambiguous fd then _ else _) as [[slot' st1] s1]. cbn in H1.
  assert (R st1 (traverseFields visit entry slots st1).1.2) as H2.
  { apply IH. intros fd' ft' Hin. apply Hvisit. by right. }
  destruct (traverseFields visit entry slots st1) as [[rest st2] s2]. cbn in *.
  by eapply R_trans.
Qed.

Lemma eachIndex_R (visit : key -> visitor (Arg:=Arg)) (ks : list key) :
  (forall k x st, R st (visit k x st).1.2) ->
  forall xs st, R st (eachIndex visit ks xs st).1.2.
Proof.
  intros Hvisit. induction ks as [|k ks IH]; intros xs st; [apply R_refl|].
  cbn [eachIndex]. destruct (0 <=? ivalue k)%Z; [|apply IH].
  destruct (xs !! Z.to_nat (ivalue k)) as [x|]; [|apply IH].
  pose proof (Hvisit k x st) as H1.
  destruct (visit k x st) as [[x' st1] s1]. cbn in H1.
  pose proof (IH (<[Z.to_nat (ivalue k) := x']> xs) st1) as H2.
  destruct (eachIndex visit ks _ st1) as [[xs' st2] s2]. cbn in *.
  by eapply R_trans.
Qed.

Lemma eachKey_R (visit : key -> visitor (Arg:=Arg)) (kt : rtype) (fresh : value)
      (ks : list key) :
  (forall k x st, R st (visit k x st).1.2) ->
  forall m st, R st (eachKey convert visit kt fresh ks m st).1.2.
Proof.
  intros Hvisit. induction ks as [|k ks IH]; intros m st; [apply R_refl|].
  cbn [eachKey].
  pose proof (Hvisit k fresh st) as H1.
  destruct (visit k fresh st) as [[x' st1] s1]. cbn in H1.
  destruct (parseKey convert kt (value_ k)) as [kv|e].
  - pose proof (IH (mapInsert kv x' m) st1) as H2.
    destruct (eachKey convert visit kt fresh ks _ st1) as [[m' st2] s2]. cbn in *.
    by eapply R_trans.
  - eapply R_trans; [exact H1|]. eapply R_trans; [apply R_setError | apply IH].
Qed.

Lemma setFieldByType_R (t : rtype) :
  (tsize t <= n)%nat ->
  forall ns v st, R st (setFieldByType convert d t ns v st).1.2.
Proof.
  induction t as [ | |tn|tn entry IH|e IH|kt e _ IH|e IH|len e IH] using rtype_ind';
    intros Ht ns v st; cbn [setFieldByType];
    (destruct (custom d _ ns st) as [[fn raw]|]; [by apply applyCustom_R|]).
  - apply setScalar_R.
  - apply setScalar_R.
  - apply R_refl.
  - destruct v as [ | | |slots| | | | ]; try apply R_refl.
    match goal with |- context [traverseFields ?f entry slots st] =>
      pose proof (traverseFields_R f entry) as Hfields;
      destruct (traverseFields f entry slots st) as [[slots' st'] set] eqn:E end.
    cbn. replace st' with (slots', st', set).1.2 by done. rewrite <- E.
    apply Hfields. intros fd ft Hin s st0.
    rewrite Forall_forall in IH. apply (IH (fd, ft) Hin).
    change (tsize ft <= n)%nat.
    pose proof (tsize_field tn entry fd ft Hin). lia.
  - pose proof (direct_R (TSlice e) ns v st Ht) as H0. cbn [tsize] in Ht.
    destruct (direct convert d (TSlice e) ns v st) as [[v1 st0] set0]. cbn in H0.
    pose proof (resolveIndices_R ns st0) as H1.
    destruct (resolveIndices ns st0) as [rd st1]. cbn in H1.
    destruct (keys rd) as [|k0 ks0] eqn:Hk; [by eapply R_trans|]. rewrite <- Hk.
    destruct (boundExceeded d rd); cbn;
      [by eapply R_trans; [exact H0 | eapply R_trans; [exact H1 | apply R_setError]]|].
    match goal with |- context [eachIndex ?f ?ks ?xs st1] =>
      pose proof (eachIndex_R f ks (fun k x st' => IH ltac:(lia) (searchValue k) x st')
                              xs st1) as H2;
      destruct (eachIndex f ks xs st1) as [[xs' st2] set] end.
    cbn in *. eapply R_trans; [exact H0 | by eapply R_trans].
  - cbn [tsize] in Ht.
    pose proof (resolveIndices_R ns st) as H1.
    destruct (resolveIndices ns st) as [rd st1]. cbn in H1.
    destruct (keys rd) as [|k0 ks0] eqn:Hk; [exact H1|]. rewrite <- Hk.
    match goal with |- context [eachKey convert ?f kt ?fresh ?ks ?m st1] =>
      pose proof (eachKey_R f kt fresh ks
                            (fun k x st' => IH ltac:(lia) (searchValue k) x st') m st1) as H2;
      destruct (eachKey convert f kt fresh ks m st1) as [[m' st2] set] end.
    cbn in *. by eapply R_trans.
  - cbn [tsize] in Ht.
    match goal with |- context [setFieldByType convert d e ns ?x st] =>
      pose proof (IH ltac:(lia) ns x st) as H1;
      destruct (setFieldByType convert d e ns x st) as [[x' st'] set] end.
    exact H1.
  - pose proof (direct_R (TArray len e) ns v st Ht) as H0. cbn [tsize] in Ht.
    destruct (direct convert d (TArray len e) ns v st) as [[v1 st0] set0]. cbn in H0.
    pose proof (resolveIndices_R ns st0) as H1.
    destruct (resolveIndices ns st0) as [rd st1]. cbn in H1.
    destruct (keys rd) as [|k0 ks0] eqn:Hk; [by eapply R_trans|]. rewrite <- Hk.
    destruct (boundExceeded d rd); cbn;
      [by eapply R_trans; [exact H0 | eapply R_trans; [exact H1 | apply R_setError]]|].
    match goal with |- context [eachIndex ?f ?ks ?xs st1] =>
      pose proof (eachIndex_R f ks (fun k x st' => IH ltac:(lia) (searchValue k) x st')
                              xs st1) as H2;
      destruct (eachIndex f ks xs st1) as [[xs' st2] set] end.
    cbn in *. eapply R_trans; [exact H0 | by eapply R_trans].
Qed.
End Preservation.

Section Extension.
Context {Arg : Type} `{Inhabited Arg}.
Variable convert : reflect.Kind -> string -> value + string.
Variable d : Decoder (Arg:=Arg).

Lemma extends_refl (st : tstate (Arg:=Arg)) : extends st st.
Proof. by repeat split. Qed.

Lemma extends_trans (st1 st2 st3 : tstate (Arg:=Arg)) :
  extends st1 st2 -> extends st2 st3 -> extends st1 st3.
Proof.
  intros (Hv & Ha & Hg & He & Hd) (Hv' & Ha' & Hg' & He' & Hd').
  repeat split; [congruence..| |]; auto.
Qed.

Lemma dm_ok_same (st st' : tstate (Arg:=Arg)) :
  values (ctx st') = values (ctx st) -> dm (ctx st') = dm (ctx st) ->
  dm_ok st -> dm_ok st'.
Proof.
  unfold dm_ok, keysOf. intros -> ->. done.
Qed.

Lemma extends_setError (ns e : string) (st : tstate (Arg:=Arg)) :
  extends st (setError ns e st).
Proof.
  repeat split; try done.
  intros k Hk. cbn. destruct (decide (ns = k)) as [->|Hne].
  - rewrite lookup_insert_eq. by eexists.
  - by rewrite lookup_insert_ne.
Qed.

Lemma extends_mirror (ns : string) (v : value) (st : tstate (Arg:=Arg)) :
  extends st (mirror ns v st).
Proof.
  unfold mirror. destruct (goValues (ctx st)); [|apply extends_refl].
  repeat split; try done.
Qed.

Lemma indicesFor_alias (l : list string) (p : string) : alias (indicesFor l p) = p.
Proof.
  unfold indicesFor.
  assert (forall rd0, alias rd0 = p -> alias (fold_left
            (fun rd k => match tokenOf p k with
                         | Some tok => addKey rd tok
                         | None => rd
                         end) l rd0) = p) as Halias.
  { induction l as [|k l IH]; intros rd0 Hrd0; [done|]. cbn. apply IH.
    destruct (tokenOf p k); [|done]. unfold addKey.
    by destruct (existsb _ (keys rd0)). }
  by apply Halias.
Qed.

Lemma extends_remember (ns : string) (st : tstate (Arg:=Arg)) :
  extends st (remember (indicesFor (keysOf st) ns) st).
Proof.
  repeat split; try done.
  intros Hok rd. cbn. intros [Hin | ->%list_elem_of_singleton]%elem_of_app.
  - by apply Hok.
  - by rewrite indicesFor_alias.
Qed.

Lemma extends_logCall (t : rtype) (ns raw : string) (st : tstate (Arg:=Arg)) :
  extends st (logCall t ns raw st).
Proof. repeat split; try done. Qed.

Lemma setFieldByType_extends (t : rtype) (ns : string) (v : value) (st : tstate (Arg:=Arg)) :
  extends st (setFieldByType convert d t ns v st).1.2.
Proof.
  apply (setFieldByType_R convert d extends (tsize t));
    eauto using extends_refl, extends_trans, extends_setError, extends_mirror,
                extends_remember, extends_logCall.
Qed.

Lemma callsWithin_refl (n : nat) (st : tstate (Arg:=Arg)) : callsWithin n st st.
Proof. intros c Hc. by left. Qed.

Lemma callsWithin_trans (n : nat) (st1 st2 st3 : tstate (Arg:=Arg)) :
  callsWithin n st1 st2 -> callsWithin n st2 st3 -> callsWithin n st1 st3.
Proof.
  intros H12 H23 c Hc. destruct (H23 c Hc) as [Hc2|Hn]; [|by right].
  by apply H12.
Qed.

Lemma setFieldByType_callsWithin (n : nat) (t : rtype) (ns : string) (v : value)
      (st : tstate (Arg:=Arg)) :
  (tsize t <= n)%nat -> callsWithin n st (setFieldByType convert d t ns v st).1.2.
Proof.
  intros Ht. apply (setFieldByType_R convert d (callsWithin n) n); [..|exact Ht].
  - apply callsWithin_refl.
  - apply callsWithin_trans.
  - intros ns' e st' c Hc. by left.
  - intros ns' v' st' c Hc. left. unfold mirror in Hc.
    by destruct (goValues (ctx st')).
  - intros ns' st' c Hc. by left.
  - intros t' ns' raw st' Ht' c Hc. cbn in Hc.
    apply elem_of_cons in Hc as [->|Hc]; [by right | by left].
Qed.
End Extension.

(** What the traversal of the fields of a record does to one slot. *)
Section Fields.
Context {Arg : Type} `{Inhabited Arg}.
Variable R : tstate (Arg:=Arg) -> tstate (Arg:=Arg) -> Prop.
Hypothesis R_refl : forall st, R st st.
Hypothesis R_trans : forall st1 st2 st3, R st1 st2 -> R st2 st3 -> R st1 st3.
Variable visit : FieldDescriptor -> rtype -> visitor (Arg:=Arg).

Lemma traverseFields_length (entry : list (FieldDescriptor * rtype)) (slots : list value)
      (st : tstate) :
  length (traverseFields visit entry slots st).1.1 = length slots.
Proof.
  revert slots st. induction entry as [|[fd ft] entry IH]; intros slots st; [done|].
  destruct slots as [|slot slots]; [done|]. cbn [traverseFields].
  destruct (if ambiguous fd then _ else _) as [[slot' st1] s1].
  specialize (IH slots st1).
  destruct (traverseFields visit entry slots st1) as [[rest st2] s2]. cbn in *.
  by rewrite IH.
Qed.

Lemma traverseFields_ambiguous (entry : list (FieldDescriptor * rtype))
      (slots : list value) (st : tstate) (j : nat) (fd : FieldDescriptor) (ft : rtype) :
  entry !! j = Some (fd, ft) -> ambiguous fd = true ->
  (traverseFields visit entry slots st).1.1 !! j = slots !! j.
Proof.
  revert slots st j. induction entry as [|[fd' ft'] entry IH]; intros slots st j Hj Hamb;
    [done|].
  destruct slots as [|slot slots]; [done|]. cbn [traverseFields].
  destruct j as [|j].
  - cbn in Hj. injection Hj as -> ->. rewrite Hamb.
    by destruct (traverseFields visit entry slots st) as [[rest st2] s2].
  - cbn in Hj.
    destruct (if ambiguous fd' then _ else _) as [[slot' st1] s1].
    specialize (IH slots st1 j Hj Hamb).
    by destruct (traverseFields visit entry slots st1) as [[rest st2] s2].
Qed.

Lemma traverseFields_slot (entry : list (FieldDescriptor * rtype)) :
  (forall fd ft, (fd, ft) ∈ entry -> forall s st, R st (visit fd ft s st).1.2) ->
  forall slots st j fd ft s,
    entry !! j = Some (fd, ft) -> ambiguous fd = false -> slots !! j = Some s ->
    exists stj,
      R st stj /\
      (traverseFields visit entry slots st).1.1 !! j = Some (visit fd ft s stj).1.1 /\
      R (visit fd ft s stj).1.2 (traverseFields visit entry slots st).1.2.
Proof.
  induction entry as [|[fd' ft'] entry IH]; intros Hvisit slots st j fd ft s Hj Hamb Hs;
    [done|].
  destruct slots as [|slot slots]; [done|]. cbn [traverseFields].
  assert (forall slots st, R st (traverseFields visit entry slots st).1.2) as Hrest.
  { apply traverseFields_R; [done..|]. intros fd0 ft0 Hin. apply Hvisit. by right. }
  destruct j as [|j].
  - cbn in Hj, Hs. injection Hj as -> ->. injection Hs as ->. rewrite Hamb.
    exists st. split; [apply R_refl|].
    destruct (visit fd ft s st) as [[slot' st1] s1].
    specialize (Hrest slots st1).
    by destruct (traverseFields visit entry slots st1) as [[rest st2] s2].
  - cbn in Hj, Hs.
    assert (R st (if ambiguous fd' then (slot, st, false) else visit fd' ft' slot st).1.2)
      as H1.
    { destruct (ambiguous fd'); [apply R_refl|]. apply Hvisit. by left. }
    destruct (if ambiguous fd' then _ else _) as [[slot' st1] s1]. cbn in H1.
    destruct (IH (fun fd0 ft0 Hin => Hvisit fd0 ft0 (list_elem_of_further _ _ _ Hin))
                 slots st1 j fd ft s Hj Hamb Hs) as (stj & Hstj & Hslot & Hfin).
    exists stj. split; [by eapply R_trans|].
    by destruct (traverseFields visit entry slots st1) as [[rest st2] s2].
Qed.
End Fields.

(** ** Ambiguous fields *)

Lemma filter_two {A : Type} (P : A -> Prop) `{forall x, Decision (P x)}
      (l : list A) (i j : nat) (x y : A) :
  (i < j)%nat -> l !! i = Some x -> l !! j = Some y -> P x -> P y ->
  (2 <= length (filter P l))%nat.
Proof.
  intros Hij Hi Hj Hx Hy.
  rewrite <- (take_drop_middle l i x Hi), filter_app, filter_cons_True by done.
  rewrite length_app. cbn [length].
  assert (y ∈ filter P (drop (S i) l)) as Hin.
  { apply list_elem_of_filter. split; [done|].
    apply list_elem_of_lookup. exists (j - S i)%nat.
    rewrite lookup_drop. rewrite <- Hj. f_equal. lia. }
  destruct (filter P (drop (S i) l)); [by apply elem_of_nil in Hin|].
  cbn [length]. lia.
Qed.

Lemma sameSlot_true (a b : FieldDescriptor) :
  sameSlot a b = true <-> name a = name b /\ depth a = depth b.
Proof.
  unfold sameSlot. by rewrite andb_true_iff, !bool_decide_eq_true.
Qed.

Lemma collides_true (raw : list (FieldDescriptor * rtype)) (i j : nat)
      (fi fj : FieldDescriptor) (ti tj : rtype) :
  raw !! i = Some (fi, ti) -> raw !! j = Some (fj, tj) -> i <> j ->
  name fi = name fj -> depth fi = depth fj ->
  collides raw fi = true.
Proof.
  intros Hi Hj Hne Hn Hd. unfold collides. apply Nat.leb_le.
  assert (sameSlot fi (fi, ti).1 = true) as Hii by by apply sameSlot_true.
  assert (sameSlot fi (fj, tj).1 = true) as Hij by by apply sameSlot_true.
  destruct (decide (i < j)%nat).
  - by eapply (filter_two _ raw i j).
  - eapply (filter_two _ raw j i); [lia|done..].
Qed.

Lemma markAmbiguous_lookup (raw : list (FieldDescriptor * rtype)) (i : nat)
      (fi : FieldDescriptor) (ti : rtype) :
  raw !! i = Some (fi, ti) ->
  markAmbiguous raw !! i =
  Some (mkFieldDescriptor (name fi) (depth fi) (isAnonymous fi) (collides raw fi), ti).
Proof.
  unfold markAmbiguous. generalize (collides raw). intros c.
  revert i. induction raw as [|p raw IH]; intros [|i] Hi; try done.
  - cbn in Hi. by injection Hi as ->.
  - cbn in *. by apply IH.
Qed.

Section DecodeRecord.
Context {Arg : Type} `{Inhabited Arg}.
Variable convert : reflect.Kind -> string -> value + string.

Lemma substring_0_0 (s : string) : substring 0 0 s = "".
Proof. by destruct s. Qed.

Lemma structTarget_record (tname : string) (entry : list (FieldDescriptor * rtype)) :
  entry <> [] -> structTarget timeType (TStruct tname entry) = true.
Proof.
  intros Hne. unfold structTarget. cbn.
  destruct entry as [|[fd ft] entry]; [done|].
  by rewrite andb_false_r.
Qed.

(** [Decode] on a record that has fields: the fields are traversed from
    the prepared context, at the empty path. *)
Lemma DecodeM_record (d : Decoder (Arg:=Arg)) (w : sinkStore) (pick : option nat)
      (tname : string) (entry : list (FieldDescriptor * rtype)) (slots : list value)
      (vals : Values) (argument : Arg) (collectGoValues : list (option loc)) :
  entry <> [] ->
  let typ := TStruct tname entry in
  let st0 := mkTstate (prepared timeType d pick typ vals argument collectGoValues) w [] in
  let r := traverseFields (fun fd ft => setFieldByType convert d ft (fieldPath d "" (name fd)))
                          entry slots st0 in
  DecodeM convert d w pick (pointerTo typ (VStruct slots)) vals argument collectGoValues =
  mkOutcome (release (ctx r.1.2)).1
            (withPool d (Pool_Put (acquire d pick vals argument).2 (release (ctx r.1.2)).2))
            (store r.1.2) (pointerTo typ (VStruct r.1.1)).
Proof.
  intros Hne. cbv zeta. unfold DecodeM. rewrite Decode_valid.
  unfold traversed. rewrite (structTarget_record tname entry Hne).
  unfold traverseStruct, traverseRecord. rewrite substring_0_0.
  by destruct (traverseFields _ entry slots _) as [[slots' st'] set].
Qed.

(** C6. In a record type whose cache entry was marked for ambiguity, take
    a field whose external name and flattening depth are those of another
    field. No traversal of the fields of such a record assigns its slot,
    whatever the visits of the other fields do and whatever keys the input
    mapping holds; in particular [Decode] into such a record leaves the
    slot as it was. *)
Theorem ambiguous_field_never_assigned (d : Decoder (Arg:=Arg)) (w : sinkStore)
        (pick : option nat) (tname : string) (raw : list (FieldDescriptor * rtype))
        (slots : list value) (vals : Values) (argument : Arg)
        (collectGoValues : list (option loc))
        (i j : nat) (fi fj : FieldDescriptor) (ti tj : rtype) :
  raw !! i = Some (fi, ti) -> raw !! j = Some (fj, tj) -> i <> j ->
  name fi = name fj -> depth fi = depth fj ->
  let entry := markAmbiguous raw in
  let typ := TStruct tname entry in
  (forall (visit : FieldDescriptor -> rtype -> visitor (Arg:=Arg)) st,
      (traverseFields visit entry slots st).1.1 !! i = slots !! i) /\
  exists slots',
    out_target (DecodeM convert d w pick (pointerTo typ (VStruct slots)) vals argument
                        collectGoValues) = pointerTo typ (VStruct slots') /\
    slots' !! i = slots !! i.
Proof.
  intros Hi Hj Hne Hn Hd entry typ.
  pose proof (markAmbiguous_lookup raw i fi ti Hi) as Hlook.
  rewrite (collides_true raw i j fi fj ti tj Hi Hj Hne Hn Hd) in Hlook.
  assert (forall (visit : FieldDescriptor -> rtype -> visitor (Arg:=Arg)) st,
             (traverseFields visit entry slots st).1.1 !! i = slots !! i) as Hkeep.
  { intros visit st. by eapply traverseFields_ambiguous. }
  split; [exact Hkeep|].
  assert (entry <> []) as Hentry.
  { intros E. fold entry in Hlook. by rewrite E in Hlook. }
  unfold typ. rewrite (DecodeM_record d w pick tname entry slots vals argument
                                      collectGoValues Hentry).
  cbn [out_target]. eexists. split; [reflexivity|]. apply Hkeep.
Qed.
End DecodeRecord.

(** ** Custom functions on records *)

Section CustomRecord.
Context {Arg : Type} `{Inhabited Arg}.
Variable convert : reflect.Kind -> string -> value + string.

Lemma tsize_pos (t : rtype) : (1 <= tsize t)%nat.
Proof. destruct t; cbn; lia. Qed.

Lemma applyCustom_calls (t : rtype) (fn : DecodeFunc (Arg:=Arg)) (raw ns : string)
      (v : value) (st : tstate) :
  calls (applyCustom t fn raw ns v st).1.2 = (t, ns, raw) :: calls st.
Proof.
  unfold applyCustom. destruct (fn raw _) as [val [e|]]; cbn; [done|].
  unfold mirror. by destruct (goValues _).
Qed.

(** C7. When the traversal comes to a value of a record type for which a
    custom function is registered, at the path [ns], the function is
    called for that type and path exactly when the input mapping has a
    value under the key [ns] itself. If it has, the function is called
    once, with the first string under that key, and owns the assignment.
    If it has not, the fields are traversed and the function is not called
    for this type at all, whatever keys for paths below [ns] there are. *)
Theorem custom_record_exact_path (d : Decoder (Arg:=Arg)) (tname : string)
        (entry : list (FieldDescriptor * rtype)) (fn : DecodeFunc (Arg:=Arg))
        (ns : string) (v : value) (st : tstate (Arg:=Arg)) :
  let T := TStruct tname entry in
  customTypeFunc d T = Some fn ->
  calls st = [] ->
  let r := setFieldByType convert d T ns v st in
  ((exists raw, (T, ns, raw) ∈ calls r.1.2) <-> is_Some (lookupValue st ns)) /\
  (forall raw, lookupValue st ns = Some raw ->
               calls r.1.2 = [(T, ns, raw)] /\ r = applyCustom T fn raw ns v st) /\
  (lookupValue st ns = None ->
   (forall c, c ∈ calls r.1.2 -> c.1.1 <> T) /\
   r = traverseRecord convert d T ns v st).
Proof.
  intros T Hfn Hcalls r.
  assert (forall raw, lookupValue st ns = Some raw ->
                      calls r.1.2 = [(T, ns, raw)] /\ r = applyCustom T fn raw ns v st)
    as Hyes.
  { intros raw Hraw. unfold r, T. cbn [setFieldByType]. fold T.
    unfold custom. rewrite Hfn, Hraw. split; [|done].
    by rewrite applyCustom_calls, Hcalls. }
  assert (lookupValue st ns = None ->
          (forall c, c ∈ calls r.1.2 -> c.1.1 <> T) /\
          r = traverseRecord convert d T ns v st) as Hno.
  { intros Hnone.
    assert (r = traverseRecord convert d T ns v st) as Hr.
    { unfold r, T. cbn [setFieldByType traverseRecord]. fold T.
      unfold custom. rewrite Hfn, Hnone. by destruct v. }
    split; [|exact Hr]. intros c Hc HcT.
    assert (callsWithin (tsize T - 1) st r.1.2) as Hwithin.
    { rewrite Hr. unfold traverseRecord, T.
      destruct v as [ | | |slots| | | | ]; try apply callsWithin_refl.
      match goal with |- context [traverseFields ?f entry slots st] =>
        pose proof (traverseFields_R (callsWithin (tsize T - 1))
                      (callsWithin_refl _) (callsWithin_trans _) f entry) as Hfields;
        destruct (traverseFields f entry slots st) as [[slots' st'] set] eqn:E end.
      cbn. specialize (Hfields
        (fun fd ft Hin s st0 =>
           setFieldByType_callsWithin convert d (tsize T - 1) ft _ s st0
             ltac:(pose proof (tsize_field tname entry fd ft Hin); unfold T; lia))
        slots st).
      by rewrite E in Hfields. }
    destruct (Hwithin c Hc) as [Hin|Hsize].
    - rewrite Hcalls in Hin. by apply elem_of_nil in Hin.
    - rewrite HcT in Hsize. pose proof (tsize_pos T). lia. }
  split; [|split; [exact Hyes | exact Hno]].
  split.
  - intros (raw & Hin). destruct (lookupValue st ns) as [raw'|] eqn:E; [by eexists|].
    destruct (Hno eq_refl) as [Hno' _]. by destruct (Hno' _ Hin).
  - intros [raw Hraw]. exists raw. destruct (Hyes raw Hraw) as [-> _]. by left.
Qed.
End CustomRecord.

(** ** Index discovery *)

Lemma addKey_mono (rd : recursiveData) (tok : string) (key : key) :
  key ∈ keys rd -> key ∈ keys (addKey rd tok).
Proof.
  intros Hin. unfold addKey. destruct (existsb _ (keys rd)); [done|].
  cbn. apply elem_of_app. by left.
Qed.

Lemma addKey_valued (rd : recursiveData) (tok : string) :
  keysValued rd -> keysValued (addKey rd tok).
Proof.
  intros Hrd key. unfold addKey. destruct (existsb _ (keys rd)); [apply Hrd|].
  cbn. intros [Hin | ->%list_elem_of_singleton]%elem_of_app; [by apply Hrd | done].
Qed.

Lemma addKey_present (rd : recursiveData) (tok : string) :
  exists key, key ∈ keys (addKey rd tok) /\ value_ key = tok.
Proof.
  unfold addKey. destruct (existsb _ (keys rd)) eqn:E.
  - apply existsb_exists in E as (key & Hin & Heq).
    exists key. split; [by apply list_elem_of_In|]. by apply bool_decide_eq_true in Heq.
  - eexists. split; [cbn; apply elem_of_app; right; by apply list_elem_of_singleton|done].
Qed.

Lemma indicesFor_fold (p : string) (l : list string) (rd0 : recursiveData) :
  let step := fun rd k => match tokenOf p k with
                          | Some tok => addKey rd tok
                          | None => rd
                          end in
  keysValued rd0 ->
  keysValued (fold_left step l rd0) /\
  (forall key, key ∈ keys rd0 -> key ∈ keys (fold_left step l rd0)) /\
  (forall k tok, k ∈ l -> tokenOf p k = Some tok ->
                 exists key, key ∈ keys (fold_left step l rd0) /\ value_ key = tok).
Proof.
  intros step. revert rd0. induction l as [|k l IH]; intros rd0 Hrd0.
  - split; [done|]. split; [done|]. intros k tok Hin. by apply elem_of_nil in Hin.
  - cbn [fold_left].
    assert (keysValued (step rd0 k)) as Hstep.
    { unfold step. destruct (tokenOf p k); [by apply addKey_valued | done]. }
    destruct (IH (step rd0 k) Hstep) as (Hval & Hmono & Hfound).
    split; [exact Hval|]. split.
    + intros key Hin. apply Hmono. unfold step.
      destruct (tokenOf p k); [by apply addKey_mono | done].
    + intros k' tok [->|Hin]%elem_of_cons Htok; [|by eapply Hfound].
      destruct (addKey_present rd0 tok) as (key & Hkey & Hv).
      exists key. split; [|done]. apply Hmono. unfold step. by rewrite Htok.
Qed.

(** A key of the input mapping that begins with [p ++ "["] is found by
    index discovery for [p], with the value of its token. *)
Lemma indicesFor_key (l : list string) (p k tok : string) :
  k ∈ l -> tokenOf p k = Some tok ->
  exists key, key ∈ keys (indicesFor l p) /\ value_ key = tok /\
              ivalue key = tokenValue tok.
Proof.
  intros Hin Htok. unfold indicesFor.
  destruct (indicesFor_fold p l (mkRecursiveData p 0 [])) as (Hval & _ & Hfound).
  { intros key Hkey. by apply elem_of_nil in Hkey. }
  destruct (Hfound k tok Hin Htok) as (key & Hkey & Hv).
  exists key. split; [done|]. split; [done|]. rewrite <- Hv. by apply Hval.
Qed.


Section Bound.
Context {Arg : Type} `{Inhabited Arg}.
Variable convert : reflect.Kind -> string -> value + string.
Variable d : Decoder (Arg:=Arg).

Lemma indicesFor_bound (l : list string) (p k tok : string) :
  k ∈ l -> tokenOf p k = Some tok ->
  (0 <= tokenValue tok)%Z -> (maxArraySize d <= tokenValue tok)%Z ->
  keys (indicesFor l p) <> [] /\ boundExceeded d (indicesFor l p) = true.
Proof.
  intros Hin Htok H0 Hmax.
  destruct (indicesFor_key l p k tok Hin Htok) as (key & Hkey & _ & Hi).
  split.
  - intros E. rewrite E in Hkey. by apply elem_of_nil in Hkey.
  - unfold boundExceeded. apply existsb_exists. exists key.
    split; [by apply list_elem_of_In|]. rewrite Hi.
    apply andb_true_iff. split; by apply Z.leb_le.
Qed.

Lemma resolveIndices_ok (ns : string) (st : tstate (Arg:=Arg)) :
  dm_ok st -> (resolveIndices ns st).1 = indicesFor (keysOf st) ns.
Proof.
  intros Hok. unfold resolveIndices.
  destruct (findAlias (dm (ctx st)) ns) as [rd|] eqn:E; [|done].
  apply find_some in E as [Hin Ha]. apply bool_decide_eq_true in Ha.
  cbn. rewrite <- Ha. apply Hok. by apply list_elem_of_In.
Qed.

Lemma direct_extends (t : rtype) (ns : string) (v : value) (st : tstate (Arg:=Arg)) :
  extends st (direct convert d t ns v st).1.2.
Proof.
  apply (direct_R convert d extends (tsize t));
    eauto using extends_refl, extends_trans, extends_setError, extends_mirror,
                extends_logCall.
Qed.

Lemma eachValue_length (visit : string -> visitor (Arg:=Arg)) (raws : list string)
      (i : nat) (xs : list value) (st : tstate) :
  length (eachValue visit raws i xs st).1.1 = length xs.
Proof.
  revert i xs st. induction raws as [|raw raws IH]; intros i xs st; [done|].
  cbn [eachValue]. destruct (xs !! i) as [x|]; [|done].
  destruct (visit raw x st) as [[x' st1] s1].
  specialize (IH (S i) (<[i := x']> xs) st1).
  destruct (eachValue visit raws _ _ st1) as [[xs' st2] s2]. cbn in *.
  by rewrite IH, length_insert.
Qed.

(** Without values under the very path the first step changes nothing;
    with them, a collection gains no more elements than there are
    values. *)
Lemma direct_values (t : rtype) (ns : string) (v : value) (st : tstate (Arg:=Arg)) :
  let r := direct convert d t ns v st in
  (values (ctx st) !! ns = None -> r = (v, st, false)) /\
  (length (elemsOf r.1.1) <=
   length (elemsOf v) + length (default [] (values (ctx st) !! ns)))%nat.
Proof.
  assert (forall e, length (valuesAt e ns st) <=
                    length (default [] (values (ctx st) !! ns)))%nat as Hlen.
  { intros e. unfold valuesAt. destruct (scalar e); cbn; lia. }
  assert (forall e, values (ctx st) !! ns = None -> valuesAt e ns st = []) as Hnone.
  { intros e Hv. unfold valuesAt. rewrite Hv. by destruct (scalar e). }
  cbv zeta. unfold direct.
  destruct t as [ | | | |e| | |len e]; try (split; [done | cbn [fst snd]; lia]).
  - specialize (Hlen e). specialize (Hnone e).
    destruct (valuesAt e ns st) as [|raw raws]; [split; [done | cbn [fst snd]; lia]|].
    split; [by intros ?%Hnone|].
    match goal with |- context [eachValue ?f ?rs ?i ?xs st] =>
      pose proof (eachValue_length f rs i xs st) as Hl;
      destruct (eachValue f rs i xs st) as [[xs' st'] set] end.
    cbn [fst snd elemsOf] in *. rewrite Hl, length_app, length_replicate. lia.
  - specialize (Hlen e). specialize (Hnone e).
    destruct (valuesAt e ns st) as [|raw raws]; [split; [done | cbn [fst snd]; lia]|].
    split; [by intros ?%Hnone|].
    match goal with |- context [eachValue ?f ?rs ?i ?xs st] =>
      pose proof (eachValue_length f rs i xs st) as Hl;
      destruct (eachValue f rs i xs st) as [[xs' st'] set] end.
    cbn [fst snd elemsOf] in *. rewrite Hl. lia.
Qed.

(** At a slice or an array that no custom function owns, an index at or
    beyond the bound makes the traverser record the error for the path of
    the collection and leave the collection as the values given without
    brackets made it: no element is set or made for an index. *)
Lemma setFieldByType_bound (t : rtype) (ns : string) (v : value)
      (st : tstate (Arg:=Arg)) (k tok : string) :
  Kind t = reflect.Slice \/ Kind t = reflect.Array ->
  custom d t ns st = None ->
  dm_ok st -> k ∈ keysOf st -> tokenOf ns k = Some tok ->
  (0 <= tokenValue tok)%Z -> (maxArraySize d <= tokenValue tok)%Z ->
  let r0 := direct convert d t ns v st in
  setFieldByType convert d t ns v st =
  (r0.1.1, setError ns errArraySize (resolveIndices ns r0.1.2).2, r0.2).
Proof.
  intros Hkind Hcustom Hok Hin Htok H0 Hmax r0.
  pose proof (direct_extends t ns v st) as (Hv & _ & _ & _ & Hdm). fold r0 in Hv, Hdm.
  assert (keysOf r0.1.2 = keysOf st) as Hkeys by (unfold keysOf; by rewrite Hv).
  pose proof (resolveIndices_ok ns r0.1.2 (Hdm Hok)) as Hrd. rewrite Hkeys in Hrd.
  destruct (indicesFor_bound (keysOf st) ns k tok Hin Htok H0 Hmax) as [Hne Hb].
  destruct t as [ | | | |e| | |len e]; try (by destruct Hkind);
    cbn [setFieldByType]; rewrite Hcustom; fold r0;
    destruct r0 as [[v1 st0] set0]; cbn [fst snd] in *;
    destruct (resolveIndices ns st0) as [rd st1]; cbn [fst snd] in *; subst rd;
    (destruct (keys (indicesFor (keysOf st) ns)) eqn:E; [done|]);
    by rewrite Hb.
Qed.

Lemma custom_none (t : rtype) (ns : string) (st : tstate (Arg:=Arg)) :
  customTypeFunc d t = None \/ lookupValue st ns = None -> custom d t ns st = None.
Proof.
  unfold custom. intros [-> | ->]; [done|]. by destruct (customTypeFunc d t).
Qed.

Lemma owned_custom (t : rtype) (ns : string) (st : tstate (Arg:=Arg)) :
  owned d (values (ctx st)) t ns = false -> custom d t ns st = None.
Proof.
  unfold owned. intros [Hf | Hv]%andb_false_iff; apply custom_none.
  - left. apply bool_decide_eq_false in Hf. destruct (customTypeFunc d t); [|done].
    destruct Hf. by eexists.
  - right. apply bool_decide_eq_false in Hv. unfold lookupValue.
    destruct (values (ctx st) !! ns ≫= head); [|done]. destruct Hv. by eexists.
Qed.

Lemma setScalar_converted (t : rtype) (ns : string) (v : value) (st : tstate (Arg:=Arg))
      (raw : string) (val : value) :
  lookupValue st ns = Some raw -> convert (Kind t) raw = inl val ->
  setScalar convert t ns v st = (val, mirror ns val st, true).
Proof. intros Hraw Hconv. unfold setScalar. by rewrite Hraw, Hconv. Qed.

Lemma prepared_values (pick : option nat) (typ : rtype) (vals : Values) (argument : Arg)
      (collectGoValues : list (option loc)) :
  let dec := prepared timeType d pick typ vals argument collectGoValues in
  values dec = vals /\ dm dec = [].
Proof.
  unfold prepared, acquire. destruct (Pool_Get (dataPool d) pick) as [dec pool]. cbn.
  destruct (structTarget timeType typ); [|done]. by destruct collectGoValues.
Qed.

Lemma release_recorded (dec : decoder (Arg:=Arg)) (k : string) :
  is_Some (default ∅ (errs dec) !! k) ->
  exists m, (release dec).1 = Some (ErrDecode m) /\ is_Some (m !! k).
Proof.
  intros Hk. rewrite release_err. destruct (errs dec) as [m|]; cbn in Hk.
  - exists m. split; [|done].
    assert (size m <> 0%nat) as Hsize by by eapply map_size_ne_0_lookup_2.
    destruct (0 <? size m)%nat eqn:E; [done|]. apply Nat.ltb_ge in E. lia.
  - rewrite lookup_empty in Hk. by destruct Hk.
Qed.

(** A record value that no custom function owns is traversed field by
    field. *)
Lemma setFieldByType_record (tn : string) (entry : list (FieldDescriptor * rtype))
      (ns : string) (v : value) (st : tstate (Arg:=Arg)) :
  custom d (TStruct tn entry) ns st = None ->
  setFieldByType convert d (TStruct tn entry) ns v st =
  traverseRecord convert d (TStruct tn entry) ns v st.
Proof. intros Hc. cbn [setFieldByType traverseRecord]. rewrite Hc. by destruct v. Qed.

(** The traversal of a record comes to every field that [reached] leads
    to: the field is visited once, in a state that comes after the one the
    traversal started in, its value afterwards is what the visit made of
    it, and what the visit recorded stays. *)
Lemma traverseRecord_reached (path : list nat) :
  forall (i : nat) (tn : string) (entry : list (FieldDescriptor * rtype))
         (slots : list value) (ns : string) (st : tstate (Arg:=Arg))
         (T : rtype) (ns' : string) (v0 : value),
    reached d (values (ctx st)) (TStruct tn entry) ns (VStruct slots) (i :: path)
    = Some (T, ns', v0) ->
    let r := traverseRecord convert d (TStruct tn entry) ns (VStruct slots) st in
    exists sti,
      extends st sti /\ custom d T ns' sti = None /\
      extends (setFieldByType convert d T ns' v0 sti).1.2 r.1.2 /\
      reached d (values (ctx st)) (TStruct tn entry) ns r.1.1 (i :: path)
      = Some (T, ns', (setFieldByType convert d T ns' v0 sti).1.1).
Proof.
  induction path as [|i' path IH]; intros i tn entry slots ns st T ns' v0 Hreach r.
  - cbn [reached] in Hreach.
    destruct (entry !! i) as [[fd ft]|] eqn:Hi; [|done].
    destruct (slots !! i) as [s|] eqn:Hs; [|done].
    destruct (ambiguous fd) eqn:Hamb; [done|].
    destruct (owned d (values (ctx st)) ft _) eqn:Hown; [done|].
    cbn in Hreach. injection Hreach as <- <- <-.
    set (visit := fun (fd0 : FieldDescriptor) (ft0 : rtype) =>
                    setFieldByType convert d ft0 (fieldPath d ns (name fd0))).
    destruct (traverseFields_slot extends extends_refl extends_trans visit entry
                (fun fd0 ft0 _ s0 st0 => setFieldByType_extends convert d ft0 _ s0 st0)
                slots st i fd ft s Hi Hamb Hs) as (sti & Hsti & Hslot & Hfin).
    exists sti. split; [exact Hsti|].
    assert (values (ctx sti) = values (ctx st)) as Hv by apply Hsti.
    split; [apply owned_custom; by rewrite Hv|].
    unfold r. cbn [traverseRecord]. fold visit.
    destruct (traverseFields visit entry slots st) as [[slots' st'] set]. cbn in *.
    split; [exact Hfin|]. by rewrite Hi, Hslot, Hamb, Hown.
  - cbn [reached] in Hreach.
    destruct (entry !! i) as [[fd ft]|] eqn:Hi; [|done].
    destruct (slots !! i) as [s|] eqn:Hs; [|done].
    destruct (ambiguous fd) eqn:Hamb; [done|].
    destruct (owned d (values (ctx st)) ft _) eqn:Hown; [done|].
    cbn [orb] in Hreach.
    set (visit := fun (fd0 : FieldDescriptor) (ft0 : rtype) =>
                    setFieldByType convert d ft0 (fieldPath d ns (name fd0))).
    destruct (traverseFields_slot extends extends_refl extends_trans visit entry
                (fun fd0 ft0 _ s0 st0 => setFieldByType_extends convert d ft0 _ s0 st0)
                slots st i fd ft s Hi Hamb Hs) as (stj & Hstj & Hslot & Hfin).
    assert (values (ctx stj) = values (ctx st)) as Hv by apply Hstj.
    destruct ft as [ | | |tn' entry'| | | | ]; try done.
    destruct s as [ | | |slots'| | | | ]; try done.
    rewrite <- Hv in Hreach.
    destruct (IH i' tn' entry' slots' _ stj T ns' v0 Hreach) as (sti & Hsti & Hc & Hin & Hout).
    exists sti. split; [by eapply extends_trans|]. split; [exact Hc|].
    assert (visit fd (TStruct tn' entry') (VStruct slots') stj =
            traverseRecord convert d (TStruct tn' entry') (fieldPath d ns (name fd))
                           (VStruct slots') stj) as Hvisit.
    { unfold visit. apply setFieldByType_record, owned_custom. by rewrite Hv. }
    rewrite Hvisit in Hslot, Hfin.
    unfold r. cbn [traverseRecord]. fold visit.
    destruct (traverseFields visit entry slots st) as [[slots1 st1] set1]. cbn [fst snd] in *.
    split; [by eapply extends_trans|].
    cbn [reached]. rewrite Hi, Hslot, Hamb, Hown. cbn [orb].
    assert (exists slots2, (traverseRecord convert d (TStruct tn' entry')
                              (fieldPath d ns (name fd)) (VStruct slots') stj).1.1
                           = VStruct slots2) as [slots2 Hs2].
    { cbn [traverseRecord]. destruct (traverseFields _ entry' slots' stj) as [[? ?] ?].
      by eexists. }
    rewrite Hs2 in Hout |- *. by rewrite <- Hv.
Qed.

Lemma DecodeM_struct (w : sinkStore) (pick : option nat) (typ : rtype) (target : value)
      (vals : Values) (argument : Arg) (collectGoValues : list (option loc)) :
  structTarget timeType typ = true ->
  let st0 := mkTstate (prepared timeType d pick typ vals argument collectGoValues) w [] in
  let r := traverseRecord convert d typ "" target st0 in
  DecodeM convert d w pick (pointerTo typ target) vals argument collectGoValues =
  mkOutcome (release (ctx r.1.2)).1
            (withPool d (Pool_Put (acquire d pick vals argument).2 (release (ctx r.1.2)).2))
            (store r.1.2) (pointerTo typ r.1.1).
Proof.
  intros Hs. cbv zeta. unfold DecodeM. rewrite Decode_valid.
  unfold traversed. rewrite Hs. unfold traverseStruct. rewrite substring_0_0.
  by destruct (traverseRecord convert d typ "" target _) as [[v' st'] set].
Qed.

Lemma DecodeM_other (w : sinkStore) (pick : option nat) (typ : rtype) (target : value)
      (vals : Values) (argument : Arg) (collectGoValues : list (option loc)) :
  structTarget timeType typ = false ->
  let st0 := mkTstate (prepared timeType d pick typ vals argument collectGoValues) w [] in
  let r := setFieldByType convert d typ "" target st0 in
  DecodeM convert d w pick (pointerTo typ target) vals argument collectGoValues =
  mkOutcome (release (ctx r.1.2)).1
            (withPool d (Pool_Put (acquire d pick vals argument).2 (release (ctx r.1.2)).2))
            (store r.1.2) (pointerTo typ r.1.1).
Proof.
  intros Hs. cbv zeta. unfold DecodeM. rewrite Decode_valid.
  unfold traversed. rewrite Hs. unfold setFieldByType_entry. rewrite substring_0_0.
  cbn [fst snd].
  by destruct (setFieldByType convert d typ "" target _) as [[v' st'] set].
Qed.

(** [Decode] comes to every field that [reached] leads to from its
    target: the field is visited in a state of this call, what the visit
    records is in the composite error, and the field holds afterwards what
    the visit made of it. *)
Lemma DecodeM_reached (w : sinkStore) (pick : option nat) (typ : rtype) (target : value)
      (vals : Values) (argument : Arg) (collectGoValues : list (option loc))
      (path : list nat) (T : rtype) (ns : string) (v : value) :
  reached d vals typ "" target path = Some (T, ns, v) ->
  (path = [] -> owned d vals T ns = false) ->
  let o := DecodeM convert d w pick (pointerTo typ target) vals argument collectGoValues in
  exists sti target',
    values (ctx sti) = vals /\ dm_ok sti /\ custom d T ns sti = None /\
    (forall k, is_Some (default ∅ (errs (ctx (setFieldByType convert d T ns v sti).1.2)) !! k) ->
               exists m, out_err o = Some (ErrDecode m) /\ is_Some (m !! k)) /\
    out_target o = pointerTo typ target' /\
    reached d vals typ "" target' path
    = Some (T, ns, (setFieldByType convert d T ns v sti).1.1).
Proof.
  intros Hreach Hroot o.
  destruct (prepared_values pick typ vals argument collectGoValues) as [Hvals Hdm].
  set (st0 := mkTstate (prepared timeType d pick typ vals argument collectGoValues) w []).
  assert (values (ctx st0) = vals) as Hv0 by exact Hvals.
  assert (dm_ok st0) as Hok0.
  { intros rd Hrd. unfold st0 in Hrd. cbn in Hrd. rewrite Hdm in Hrd.
    by apply elem_of_nil in Hrd. }
  destruct path as [|i path].
  - cbn in Hreach. injection Hreach as <- <- <-. specialize (Hroot eq_refl).
    assert (custom d typ "" st0 = None) as Hc by (apply owned_custom; by rewrite Hv0).
    assert (o = let r := setFieldByType convert d typ "" target st0 in
                mkOutcome (release (ctx r.1.2)).1
                  (withPool d (Pool_Put (acquire d pick vals argument).2
                                        (release (ctx r.1.2)).2))
                  (store r.1.2) (pointerTo typ r.1.1)) as Ho.
    { unfold o. destruct (structTarget timeType typ) eqn:Hs.
      - rewrite (DecodeM_struct _ _ _ _ _ _ _ Hs). fold st0.
        destruct typ as [ | | |tn entry| | | | ]; try (by cbn in Hs).
        by rewrite (setFieldByType_record tn entry "" target st0 Hc).
      - by rewrite (DecodeM_other _ _ _ _ _ _ _ Hs). }
    exists st0, (setFieldByType convert d typ "" target st0).1.1.
    split; [done|]. split; [done|]. split; [done|]. rewrite Ho. cbn [out_err out_target].
    split; [intros k; apply release_recorded | done].
  - assert (exists tn entry slots, typ = TStruct tn entry /\ target = VStruct slots /\
                                   entry <> []) as (tn & entry & slots & -> & -> & Hne).
    { cbn [reached] in Hreach.
      destruct typ as [ | | |tn entry| | | | ]; try done.
      destruct target as [ | | |slots| | | | ]; try done.
      exists tn, entry, slots. split; [done|]. split; [done|].
      intros ->. by rewrite lookup_nil in Hreach. }
    rewrite <- Hv0 in Hreach.
    destruct (traverseRecord_reached path i tn entry slots "" st0 T ns v Hreach)
      as (sti & Hsti & Hc & Hfin & Hout).
    unfold o. rewrite (DecodeM_struct _ _ _ _ _ _ _ (structTarget_record tn entry Hne)).
    fold st0. cbn [out_err out_target].
    exists sti, (traverseRecord convert d (TStruct tn entry) "" (VStruct slots) st0).1.1.
    destruct Hsti as (Hv & Ha & Hg & He & Hd).
    split; [congruence|]. split; [by apply Hd|]. split; [exact Hc|].
    split; [|split; [done | by rewrite <- Hv0]].
    intros k Hk. apply release_recorded. by apply Hfin.
Qed.

(** C4. An index at or beyond the maximum array size of the decoder is an
    error for the field, nothing more and nothing less.

    At every slice or array the traverser visits and no custom function
    owns, in a state whose index records are right: when the mapping holds
    a key for an element of the collection with a numeric index at or
    beyond the maximum, the traverser records the error of the bound
    under the path of the collection; the collection is left as the values
    given without brackets made it (as it was, when there are none); no
    element is made or set for any index, so it has no more elements than
    it had and such values there are; and the state comes after the one
    before, so the traversal goes on with what it had.

    For [Decode] as a whole: when such a collection is the target, or a
    field of the target record, or of a record nested in it (a field that
    is not ambiguous and not owned by a custom function, at every level),
    [Decode] returns a composite error with an entry for the path of the
    collection; the collection holds afterwards what is said above; and
    the decode goes on: every field of primitive kind on such a path that
    has a value in the mapping which converts holds the converted value
    afterwards, whether it comes before or after the collection. *)
Theorem index_beyond_bound_is_field_error :
  (forall (T : rtype) (ns : string) (v : value) (st : tstate (Arg:=Arg)) (k tok : string),
      Kind T = reflect.Slice \/ Kind T = reflect.Array ->
      custom d T ns st = None ->
      dm_ok st -> k ∈ keysOf st -> tokenOf ns k = Some tok ->
      (0 <= tokenValue tok)%Z -> (maxArraySize d <= tokenValue tok)%Z ->
      let r := setFieldByType convert d T ns v st in
      default ∅ (errs (ctx r.1.2)) !! ns = Some errArraySize /\
      r.1.1 = (direct convert d T ns v st).1.1 /\
      (values (ctx st) !! ns = None -> r.1.1 = v /\ r.2 = false) /\
      (length (elemsOf r.1.1) <=
       length (elemsOf v) + length (default [] (values (ctx st) !! ns)))%nat /\
      extends st r.1.2) /\
  (forall (w : sinkStore) (pick : option nat) (typ : rtype) (target : value)
          (vals : Values) (argument : Arg) (collectGoValues : list (option loc))
          (path : list nat) (T : rtype) (ns : string) (v : value) (k tok : string),
      reached d vals typ "" target path = Some (T, ns, v) ->
      Kind T = reflect.Slice \/ Kind T = reflect.Array ->
      (path = [] -> owned d vals T ns = false) ->
      is_Some (vals !! k) -> tokenOf ns k = Some tok ->
      (0 <= tokenValue tok)%Z -> (maxArraySize d <= tokenValue tok)%Z ->
      let o := DecodeM convert d w pick (pointerTo typ target) vals argument
                       collectGoValues in
      (exists m, out_err o = Some (ErrDecode m) /\ is_Some (m !! ns)) /\
      exists target' v',
        out_target o = pointerTo typ target' /\
        reached d vals typ "" target' path = Some (T, ns, v') /\
        (vals !! ns = None -> v' = v) /\
        (length (elemsOf v') <=
         length (elemsOf v) + length (default [] (vals !! ns)))%nat /\
        forall path2 tj nsj sj raw val,
          path2 <> [] ->
          reached d vals typ "" target path2 = Some (tj, nsj, sj) ->
          scalar tj = true ->
          vals !! nsj ≫= head = Some raw ->
          convert (Kind tj) raw = inl val ->
          reached d vals typ "" target' path2 = Some (tj, nsj, val)).
Proof.
  assert (forall (T : rtype) (ns : string) (v : value) (st : tstate (Arg:=Arg))
                 (k tok : string),
      Kind T = reflect.Slice \/ Kind T = reflect.Array ->
      custom d T ns st = None ->
      dm_ok st -> k ∈ keysOf st -> tokenOf ns k = Some tok ->
      (0 <= tokenValue tok)%Z -> (maxArraySize d <= tokenValue tok)%Z ->
      let r := setFieldByType convert d T ns v st in
      default ∅ (errs (ctx r.1.2)) !! ns = Some errArraySize /\
      r.1.1 = (direct convert d T ns v st).1.1 /\
      (values (ctx st) !! ns = None -> r.1.1 = v /\ r.2 = false) /\
      (length (elemsOf r.1.1) <=
       length (elemsOf v) + length (default [] (values (ctx st) !! ns)))%nat /\
      extends st r.1.2) as Hnode.
  { intros T ns v st k tok Hkind Hc Hok Hin Htok H0 Hmax r.
    pose proof (setFieldByType_extends convert d T ns v st) as Hext. fold r in Hext.
    unfold r in *.
    rewrite (setFieldByType_bound T ns v st k tok Hkind Hc Hok Hin Htok H0 Hmax).
    destruct (direct_values T ns v st) as [Hnone Hlen]. cbn [fst snd].
    split; [|split; [done|split; [|split; [exact Hlen|]]]].
    - cbn. by rewrite lookup_insert_eq.
    - intros Hv. by rewrite (Hnone Hv).
    - by rewrite (setFieldByType_bound T ns v st k tok Hkind Hc Hok Hin Htok H0 Hmax)
        in Hext. }
  split; [exact Hnode|].
  intros w pick typ target vals argument collectGoValues path T ns v k tok
         Hreach Hkind Hroot Hk Htok H0 Hmax o.
  destruct (DecodeM_reached w pick typ target vals argument collectGoValues path T ns v
                            Hreach Hroot)
    as (sti & target' & Hv & Hok & Hc & Herr & Htarget & Hout).
  fold o in Herr, Htarget.
  assert (k ∈ keysOf sti) as Hin.
  { unfold keysOf. rewrite Hv. destruct Hk as [x Hx]. apply list_elem_of_fmap.
    exists (k, x). split; [done|]. by apply elem_of_map_to_list. }
  destruct (Hnode T ns v sti k tok Hkind Hc Hok Hin Htok H0 Hmax)
    as (Hrec & _ & Hsame & Hlen & _).
  rewrite Hv in Hsame, Hlen.
  split; [apply Herr; rewrite Hrec; by eexists|].
  exists target', (setFieldByType convert d T ns v sti).1.1.
  split; [exact Htarget|]. split; [exact Hout|].
  split; [by intros [? _]%Hsame|]. split; [exact Hlen|].
  intros path2 tj nsj sj raw val Hne2 Hreach2 Hscalar Hraw Hconv.
  destruct (DecodeM_reached w pick typ target vals argument collectGoValues path2 tj nsj sj
                            Hreach2 ltac:(done))
    as (stj & target2 & Hvj & _ & Hcj & _ & Htarget2 & Hout2).
  fold o in Htarget2. rewrite Htarget in Htarget2. injection Htarget2 as <-.
  rewrite Hout2. do 2 f_equal.
  assert (lookupValue stj nsj = Some raw) as Hlook by (unfold lookupValue; by rewrite Hvj).
  destruct tj; try done; cbn [setFieldByType]; rewrite Hcj;
    by rewrite (setScalar_converted _ _ _ _ raw val Hlook Hconv).
Qed.
End Bound.

(** ** Sizing *)

Lemma addKey_sized (rd : recursiveData) (tok : string) : sized rd -> sized (addKey rd tok).
Proof.
  intros [Hle Hmax]. unfold addKey. destruct (existsb _ (keys rd)); [done|].
  set (i := tokenValue tok). split; cbn [keys sliceLen ivalue].
  - intros key [Hin | ->%list_elem_of_singleton]%elem_of_app Hpos.
    + specialize (Hle key Hin Hpos). destruct (0 <=? i)%Z; lia.
    + cbn in *. rewrite (proj2 (Z.leb_le _ _) Hpos). lia.
  - destruct (0 <=? i)%Z eqn:Ei.
    + apply Z.leb_le in Ei.
      destruct (Z.max_spec (sliceLen rd) (satSucc i)) as [[Hlt ->] | [Hge ->]].
      * right. eexists. split; [apply elem_of_app; right; by apply list_elem_of_singleton|].
        done.
      * destruct Hmax as [H0 | (key & Hin & Hpos & Heq)]; [by left|].
        right. exists key. split; [apply elem_of_app; by left|done].
    + destruct Hmax as [H0 | (key & Hin & Hpos & Heq)]; [by left|].
      right. exists key. split; [apply elem_of_app; by left|done].
Qed.

(** Index discovery sizes a collection at one more than its largest
    numeric index, saturating; at 0 without a numeric index. *)
Lemma indicesFor_sized (l : list string) (p : string) : sized (indicesFor l p).
Proof.
  unfold indicesFor.
  assert (sized (mkRecursiveData p 0 [])) as H0.
  { split; [|by left]. intros key Hin. by apply elem_of_nil in Hin. }
  revert H0. generalize (mkRecursiveData p 0 []).
  induction l as [|k l IH]; intros rd Hrd; [done|]. cbn [fold_left]. apply IH.
  destruct (tokenOf p k); [by apply addKey_sized | done].
Qed.

(** ** The traversal writes to no map but the sink of its context *)

Section Frame.
Context {Arg : Type} `{Inhabited Arg}.
Variable convert : reflect.Kind -> string -> value + string.
Variable d : Decoder (Arg:=Arg).

Lemma sinkFramed_refl (st : tstate (Arg:=Arg)) : sinkFramed st st.
Proof. by split. Qed.

Lemma sinkFramed_trans (st1 st2 st3 : tstate (Arg:=Arg)) :
  sinkFramed st1 st2 -> sinkFramed st2 st3 -> sinkFramed st1 st3.
Proof.
  intros [Hg Hs] [Hg' Hs']. split; [congruence|].
  intros l Hl. rewrite Hs' by congruence. by apply Hs.
Qed.

Lemma sinkFramed_mirror (ns : string) (v : value) (st : tstate (Arg:=Arg)) :
  sinkFramed st (mirror ns v st).
Proof.
  unfold mirror. destruct (goValues (ctx st)) as [l0|] eqn:E; [|apply sinkFramed_refl].
  split; [done|]. cbn. intros l Hl. rewrite E in Hl.
  apply lookup_insert_ne. congruence.
Qed.

Lemma setFieldByType_sinkFramed (t : rtype) (ns : string) (v : value)
      (st : tstate (Arg:=Arg)) :
  sinkFramed st (setFieldByType convert d t ns v st).1.2.
Proof.
  apply (setFieldByType_R convert d sinkFramed (tsize t));
    eauto using sinkFramed_refl, sinkFramed_trans, sinkFramed_mirror.
  - intros ns' e st'. by split.
  - intros ns' st'. by split.
  - intros t' ns' raw st' _. by split.
Qed.

Lemma traverseRecord_sinkFramed (t : rtype) (ns : string) (v : value)
      (st : tstate (Arg:=Arg)) :
  sinkFramed st (traverseRecord convert d t ns v st).1.2.
Proof.
  unfold traverseRecord. destruct t as [ | | |tn entry| | | | ]; try apply sinkFramed_refl.
  destruct v as [ | | |slots| | | | ]; try apply sinkFramed_refl.
  match goal with |- context [traverseFields ?f entry slots st] =>
    pose proof (traverseFields_R sinkFramed sinkFramed_refl sinkFramed_trans f entry
                  (fun fd ft _ s st0 => setFieldByType_sinkFramed ft _ s st0) slots st)
      as Hfields;
    destruct (traverseFields f entry slots st) as [[slots' st'] set] end.
  exact Hfields.
Qed.

(** A decode call leaves every map of the store as it was, except the
    one the context it works with refers to. In particular, with a
    context that holds no sink, no map is written. *)
Lemma DecodeM_store_frame (w : sinkStore) (pick : option nat) (typ : rtype) (e : value)
      (vals : Values) (argument : Arg) (collectGoValues : list (option loc)) (l : loc) :
  goValues (prepared timeType d pick typ vals argument collectGoValues) <> Some l ->
  out_store (DecodeM convert d w pick (pointerTo typ e) vals argument collectGoValues) !! l
  = w !! l.
Proof.
  intros Hl. unfold DecodeM. rewrite Decode_valid. cbn [out_store].
  unfold traversed.
  set (dec := prepared timeType d pick typ vals argument collectGoValues) in *.
  destruct (structTarget timeType typ).
  - unfold traverseStruct.
    pose proof (traverseRecord_sinkFramed typ (substring 0 0 (namespace dec)) e
                  (mkTstate dec w [])) as [_ Hframe].
    destruct (traverseRecord convert d typ _ e _) as [[v' st'] set]. cbn in *.
    by apply Hframe.
  - unfold setFieldByType_entry. cbn [fst snd].
    pose proof (setFieldByType_sinkFramed typ (substring 0 0 (namespace dec)) e
                  (mkTstate dec w [])) as [_ Hframe].
    destruct (setFieldByType convert d typ _ e _) as [[v' st'] set]. cbn in *.
    by apply Hframe.
Qed.
End Frame.

(** ** Runs of the decoder *)

(** C1. For the mapping with the keys [A[0]] and [A[2]], index discovery
    for the prefix [A] sizes the collection at 3 (one more than the largest
    index), in whichever order the keys are met; decoding into a record
    with the slice field [A] yields a slice of length 3 that holds the two
    decoded values at 0 and 2 and the zero value of the element at 1, and
    no error. *)
Theorem sparse_indices_size_three (x y : string) :
  let vals : Values := <["A[0]" := [x]]> (<["A[2]" := [y]]> ∅) in
  let o := Traverser.DecodeM simpleConvert NewDecoder ∅ None
             (pointerTo sampleA (zero sampleA)) vals tt [] in
  sliceLen (indicesFor ["A[0]"; "A[2]"] "A") = 3%Z /\
  sliceLen (indicesFor ["A[2]"; "A[0]"] "A") = 3%Z /\
  sliceLen (indicesFor (fst <$> map_to_list vals) "A") = 3%Z /\
  out_err o = None /\
  out_target o =
    pointerTo sampleA (VStruct [VSlice [VString x; zero TString; VString y]]).
Proof. intros vals o. repeat split; vm_compute; reflexivity. Qed.

(** C5 fails on the code: [Decode] puts the context back with the sink of
    the call still in it. A first call passes the sink at location 1; the
    pooled context keeps it; a second call that passes no sink and gets
    that context from the pool runs with the sink attached, and what it
    decodes lands in the map of the first caller. *)
Theorem Decode_keeps_sink_of_earlier_call :
  let first := Traverser.DecodeM simpleConvert NewDecoder ∅ None
                 (pointerTo sampleUser (zero sampleUser))
                 {["Name" := ["alice"]]} tt [Some 1%positive] in
  let second := Traverser.DecodeM simpleConvert (out_decoder first) (out_store first)
                  (Some 0%nat) (pointerTo sampleUser (zero sampleUser))
                  {["Name" := ["bob"]]} tt [] in
  goValues <$> dataPool (out_decoder first) = [Some 1%positive] /\
  out_store first !! 1%positive ≫= (fun m => m !! "Name") = Some (VString "alice") /\
  goValues (prepared Traverser.timeType (out_decoder first) (Some 0%nat) sampleUser
                     {["Name" := ["bob"]]} tt []) = Some 1%positive /\
  out_err second = None /\
  out_store second !! 1%positive ≫= (fun m => m !! "Name") = Some (VString "bob").
Proof. repeat split; vm_compute; reflexivity. Qed.


(** ** The theorems at concrete inputs *)

Lemma DecodeErrors_Error_lines_witness :
  let d : DecodeErrors := {["Age" := "invalid syntax" +:+ EncodeRune 160]} in
  let out := renderIn "" "Field Namespace:" " ERROR:" (map_to_list d) in
  d <> ∅ /\
  DecodeErrors_Error "" "Field Namespace:" " ERROR:" d out /\
  out = "Field Namespace:Age ERROR:invalid syntax" /\
  exists (order : list (string * string)) (lead trail : string),
    order ≡ₚ map_to_list d /\
    length order = size d /\
    (forall k e, d !! k = Some e <-> (k, e) ∈ order) /\
    out = TrimSpace ("" +:+ Join (entryLine "Field Namespace:" " ERROR:" <$> order) nl) /\
    "" +:+ Join (entryLine "Field Namespace:" " ERROR:" <$> order) nl
    = lead +:+ out +:+ trail /\
    whiteSpace lead /\ whiteSpace trail /\
    (forall p r, p ∈ spaceRunes -> out <> p +:+ r) /\
    (forall p r, p ∈ spaceRunes -> out <> r +:+ p).
Proof.
  intros d out.
  assert (d <> ∅) as Hne.
  { intros E. assert (d !! "Age" = None) as Hnone by (rewrite E; reflexivity).
    vm_compute in Hnone. discriminate. }
  assert (DecodeErrors_Error "" "Field Namespace:" " ERROR:" d out) as Hout.
  { exists (map_to_list d). split; reflexivity. }
  split; [exact Hne|]. split; [exact Hout|]. split; [vm_compute; reflexivity|].
  exact (DecodeErrors_Error_lines "" "Field Namespace:" " ERROR:" d out Hne Hout).
Defined.

Lemma Decode_invalid_target_witness :
  let v : iface := Some (sampleUser, zero sampleUser) in
  (Value_Kind (ValueOf v) <> reflect.Ptr \/ Value_IsNil (ValueOf v) = true) /\
  Traverser.DecodeM simpleConvert NewDecoder ∅ None v {["Name" := ["alice"]]} tt
                    [Some 1%positive] =
  mkOutcome (Some (ErrInvalidDecoder (mkInvalidDecoderError (TypeOf v)))) NewDecoder ∅ v /\
  InvalidDecoderError_Error (mkInvalidDecoderError (TypeOf v)) =
  "form: Decode(non-pointer User)".
Proof.
  intros v.
  assert (Value_Kind (ValueOf v) <> reflect.Ptr \/ Value_IsNil (ValueOf v) = true) as Hv.
  { left. vm_compute. discriminate. }
  split; [exact Hv|].
  exact (Decode_invalid_target (Traverser.traverseStruct simpleConvert)
           (Traverser.setFieldByType_entry simpleConvert) Traverser.timeType
           NewDecoder ∅ None v {["Name" := ["alice"]]} tt [Some 1%positive] Hv).
Defined.

Lemma Decode_composite_iff_witness :
  let vals : Values := {["A[10000]" := ["x"]]} in
  let o := Traverser.DecodeM simpleConvert NewDecoder ∅ None
             (pointerTo sampleAB (zero sampleAB)) vals tt [] in
  let after := (traversed (Traverser.traverseStruct simpleConvert)
                  (Traverser.setFieldByType_entry simpleConvert) Traverser.timeType
                  NewDecoder ∅ None sampleAB (zero sampleAB) vals tt []).1.1 in
  pool_clean (NewDecoder (Arg:=unit)) /\
  ((exists m, out_err o = Some (ErrDecode m) /\ errs after = Some m) <->
   (0 < lenErrs (errs after))%nat) /\
  pool_clean (out_decoder o).
Proof.
  intros vals o after.
  assert (pool_clean (NewDecoder (Arg:=unit))) as Hclean by (vm_compute; constructor).
  split; [exact Hclean|].
  destruct (Decode_composite_iff (Traverser.traverseStruct simpleConvert)
              (Traverser.setFieldByType_entry simpleConvert) Traverser.timeType
              NewDecoder ∅ None sampleAB (zero sampleAB) vals tt [] Hclean)
    as (_ & Hiff & _ & Hpool).
  split; [exact Hiff | exact Hpool].
Defined.

Lemma Decode_sink_attachment_witness :
  goValues (prepared Traverser.timeType (NewDecoder (Arg:=unit)) None sampleUser ∅ tt
                     [Some 1%positive]) = Some 1%positive /\
  Traverser.DecodeM simpleConvert NewDecoder ∅ None (pointerTo TString (VString ""))
                    {["" := ["x"]]} tt [Some 1%positive] =
  Traverser.DecodeM simpleConvert NewDecoder ∅ None (pointerTo TString (VString ""))
                    {["" := ["x"]]} tt [].
Proof.
  split.
  - destruct (Decode_sink_attachment (Traverser.traverseStruct simpleConvert)
                (Traverser.setFieldByType_entry simpleConvert) Traverser.timeType
                (NewDecoder (Arg:=unit)) ∅ None sampleUser (zero sampleUser) ∅ tt
                [Some 1%positive]) as (_ & Hstruct & _).
    apply Hstruct. vm_compute. reflexivity.
  - destruct (Decode_sink_attachment (Traverser.traverseStruct simpleConvert)
                (Traverser.setFieldByType_entry simpleConvert) Traverser.timeType
                (NewDecoder (Arg:=unit)) ∅ None TString (VString "") {["" := ["x"]]} tt
                [Some 1%positive]) as (_ & _ & Hother).
    apply Hother. vm_compute. reflexivity.
Defined.

Lemma ambiguous_field_never_assigned_witness :
  let typ := TStruct "T" (markAmbiguous sampleTwice) in
  sampleTwice !! 0%nat = Some (plain "Field", TString) /\
  sampleTwice !! 1%nat = Some (plain "Field", TString) /\
  exists slots',
    out_target (Traverser.DecodeM simpleConvert NewDecoder ∅ None
                  (pointerTo typ (VStruct [VString "a"; VString "b"; VString "c"]))
                  {["Field" := ["x"]]} tt []) = pointerTo typ (VStruct slots') /\
    slots' !! 0%nat = Some (VString "a").
Proof.
  intros typ. split; [reflexivity|]. split; [reflexivity|].
  exact (proj2 (ambiguous_field_never_assigned simpleConvert NewDecoder ∅ None "T"
                  sampleTwice [VString "a"; VString "b"; VString "c"]
                  {["Field" := ["x"]]} tt [] 0%nat 1%nat (plain "Field") (plain "Field")
                  TString TString eq_refl eq_refl ltac:(lia) eq_refl eq_refl)).
Defined.

Lemma custom_record_exact_path_witness :
  let d := RegisterFunc (NewDecoder (Arg:=unit)) sampleFunc [sampleUser] in
  let st := mkTstate (mkDecoder "" {["User.Name" := ["bob"]]} tt [] false None None) ∅ [] in
  let r := setFieldByType simpleConvert d sampleUser "User" (zero sampleUser) st in
  customTypeFunc d sampleUser = Some sampleFunc /\
  (forall c, c ∈ calls r.1.2 -> c.1.1 <> sampleUser) /\
  r.1.1 = VStruct [VString "bob"].
Proof.
  intros d st r.
  assert (customTypeFunc d sampleUser = Some sampleFunc) as Hfn by reflexivity.
  split; [exact Hfn|].
  destruct (custom_record_exact_path simpleConvert d "User" [(plain "Name", TString)]
              sampleFunc "User" (zero sampleUser) st Hfn eq_refl) as (_ & _ & Hnone).
  destruct (Hnone ltac:(vm_compute; reflexivity)) as [Hcalls _].
  split; [exact Hcalls|]. vm_compute. reflexivity.
Defined.

Lemma index_beyond_bound_is_field_error_witness :
  let vals : Values := <["Item.Tags[10000]" := ["x"]]> {["B" := ["y"]]} in
  let tags := TArray 2 TString in
  let o := Traverser.DecodeM simpleConvert NewDecoder ∅ None
             (pointerTo sampleOrder (zero sampleOrder)) vals tt [] in
  reached (NewDecoder (Arg:=unit)) vals sampleOrder "" (zero sampleOrder) [0; 0]%nat
  = Some (tags, "Item.Tags", zero tags) /\
  is_Some (vals !! "Item.Tags[10000]") /\
  tokenOf "Item.Tags" "Item.Tags[10000]" = Some "10000" /\
  (maxArraySize (NewDecoder (Arg:=unit)) <= tokenValue "10000")%Z /\
  (exists m, out_err o = Some (ErrDecode m) /\ is_Some (m !! "Item.Tags")) /\
  exists target',
    out_target o = pointerTo sampleOrder target' /\
    reached (NewDecoder (Arg:=unit)) vals sampleOrder "" target' [0; 0]%nat
    = Some (tags, "Item.Tags", zero tags) /\
    reached (NewDecoder (Arg:=unit)) vals sampleOrder "" target' [1]%nat
    = Some (TString, "B", VString "y").
Proof.
  intros vals tags o.
  assert (reached (NewDecoder (Arg:=unit)) vals sampleOrder "" (zero sampleOrder) [0; 0]%nat
          = Some (tags, "Item.Tags", zero tags)) as Hreach by (vm_compute; reflexivity).
  assert (is_Some (vals !! "Item.Tags[10000]")) as Hk
    by (exists ["x"]; vm_compute; reflexivity).
  assert (tokenOf "Item.Tags" "Item.Tags[10000]" = Some "10000") as Htok by reflexivity.
  assert (0 <= tokenValue "10000")%Z as H0 by (vm_compute; discriminate).
  assert (maxArraySize (NewDecoder (Arg:=unit)) <= tokenValue "10000")%Z as Hmax
    by (vm_compute; discriminate).
  split; [exact Hreach|]. split; [exact Hk|]. split; [exact Htok|]. split; [exact Hmax|].
  destruct (proj2 (index_beyond_bound_is_field_error simpleConvert NewDecoder)
              ∅ None sampleOrder (zero sampleOrder) vals tt [] [0; 0]%nat tags
              "Item.Tags" (zero tags) "Item.Tags[10000]" "10000" Hreach
              (or_intror eq_refl) ltac:(discriminate) Hk Htok H0 Hmax)
    as (Herr & target' & v' & Htarget & Hout & Hsame & _ & Hrest).
  split; [exact Herr|]. exists target'. split; [exact Htarget|]. split.
  - rewrite Hout. by rewrite (Hsame ltac:(vm_compute; reflexivity)).
  - apply (Hrest [1]%nat TString "B" (VString "") "y" (VString "y"));
      try reflexivity; discriminate.
Defined.

(** * Further properties of the code *)

(** ** Registration and configuration *)

Section Registration.
Context {Arg : Type} `{Inhabited Arg}.

Lemma fold_setFunc (fn : DecodeFunc (Arg:=Arg)) (types : list rtype)
      (m : rtype -> option (DecodeFunc (Arg:=Arg))) (t : rtype) :
  fold_left (fun m t0 => setFunc m t0 fn) types m t =
  if existsb (fun t0 => rtype_eqb t0 t) types then Some fn else m t.
Proof.
  revert m. induction types as [|t0 types IH]; intros m; [done|].
  cbn [fold_left existsb]. rewrite IH. unfold setFunc.
  destruct (rtype_eqb t0 t); cbn; [|done]. by destruct (existsb _ types).
Qed.

Lemma existsb_rtype (types : list rtype) (t : rtype) :
  existsb (fun t0 => rtype_eqb t0 t) types = true <-> t ∈ types.
Proof.
  rewrite existsb_exists. split.
  - intros (t0 & Hin & ->%rtype_eqb_eq). by apply list_elem_of_In.
  - intros Hin. exists t. split; [by apply list_elem_of_In | apply rtype_eqb_refl].
Qed.

(** X1. After [RegisterFunc], every type of the list has the function,
    every other type has what it had before (nothing, on a decoder without
    registrations), and the rest of the decoder is as it was. *)
Theorem RegisterFunc_lookup (d : Decoder (Arg:=Arg)) (fn : DecodeFunc (Arg:=Arg))
        (types : list rtype) (t : rtype) :
  (t ∈ types -> customTypeFunc (RegisterFunc d fn types) t = Some fn) /\
  (t ∉ types -> customTypeFunc (RegisterFunc d fn types) t = customTypeFunc d t) /\
  dataPool (RegisterFunc d fn types) = dataPool d /\
  maxArraySize (RegisterFunc d fn types) = maxArraySize d /\
  structCache (RegisterFunc d fn types) = structCache d.
Proof.
  assert (customTypeFunc (RegisterFunc d fn types) t =
          if existsb (fun t0 => rtype_eqb t0 t) types then Some fn
          else customTypeFunc d t) as Hlook.
  { unfold customTypeFunc, RegisterFunc. cbn. rewrite fold_setFunc.
    by destruct (customTypeFuncs d). }
  split; [|split; [|done]].
  - intros Hin. rewrite Hlook. by rewrite (proj2 (existsb_rtype types t) Hin).
  - intros Hnin. rewrite Hlook.
    destruct (existsb _ types) eqn:E; [|done]. by apply existsb_rtype in E.
Qed.

(** X2. [SetMaxArraySize] stores [int(size)]: for a [uint] below 2^63 the
    maximum is [size]; from 2^63 on it wraps to [size - 2^64], which is
    negative. *)
Theorem SetMaxArraySize_wraps (d : Decoder (Arg:=Arg)) (size : Z) :
  (0 <= size < 2 ^ 64)%Z ->
  let m := maxArraySize (SetMaxArraySize d size) in
  (size < 2 ^ 63 -> m = size)%Z /\
  (2 ^ 63 <= size -> m = size - 2 ^ 64 /\ m < 0)%Z /\
  (- 2 ^ 63 <= m < 2 ^ 63)%Z.
Proof.
  intros Hsize m. unfold m. cbn. unfold int_of_uint.
  destruct (Z.ltb_spec size (2 ^ 63)); lia.
Qed.
End Registration.

Lemma SetMaxArraySize_wraps_witness :
  maxArraySize (SetMaxArraySize (NewDecoder (Arg:=unit)) (2 ^ 64 - 1)) = (-1)%Z /\
  maxArraySize (SetMaxArraySize (NewDecoder (Arg:=unit)) 20000) = 20000%Z.
Proof.
  split.
  - destruct (SetMaxArraySize_wraps (NewDecoder (Arg:=unit)) (2 ^ 64 - 1) ltac:(lia))
      as (_ & Hbig & _).
    destruct (Hbig ltac:(lia)) as [-> _]. reflexivity.
  - destruct (SetMaxArraySize_wraps (NewDecoder (Arg:=unit)) 20000 ltac:(lia))
      as (Hsmall & _).
    apply Hsmall. lia.
Defined.

(** ** Decode and its pool *)

Section DecodeMore.
Context {Arg : Type} `{Inhabited Arg}.
Variable traverseStruct :
  Decoder (Arg:=Arg) -> decoder (Arg:=Arg) -> sinkStore -> value -> rtype -> string ->
  decoder (Arg:=Arg) * sinkStore * value.
Variable setFieldByType :
  Decoder (Arg:=Arg) -> decoder (Arg:=Arg) -> sinkStore -> rtype * value -> bool ->
  string -> Z -> decoder (Arg:=Arg) * sinkStore * value.
Variable timeType : rtype.

Local Abbreviation Decode'' := (Decode traverseStruct setFieldByType timeType).
Local Abbreviation traversed'' := (traversed traverseStruct setFieldByType timeType).
Local Abbreviation reachable' := (reachable traverseStruct setFieldByType timeType).

Lemma Value_Elem_Some (val : Value) (t : rtype) (x : value) :
  Value_Elem val = Some (t, x) -> val = pointerTo t x.
Proof.
  destruct val as [[ty va]|]; [|done].
  destruct ty; try done. destruct va as [ | | | | | |p| ]; try done.
  destruct p; [|done]. by intros [= -> ->].
Qed.

(** The three ways a call of [Decode] can go, by its target. *)
Lemma Decode_cases (d : Decoder (Arg:=Arg)) (w : sinkStore) (pick : option nat)
      (v : iface) (vals : Values) (argument : Arg) :
  ((Value_Kind (ValueOf v) <> reflect.Ptr \/ Value_IsNil (ValueOf v) = true) /\
   forall collectGoValues,
     Decode'' d w pick v vals argument collectGoValues =
     mkOutcome (Some (ErrInvalidDecoder (mkInvalidDecoderError (TypeOf v)))) d w v) \/
  (Value_Kind (ValueOf v) = reflect.Ptr /\ Value_IsNil (ValueOf v) = false /\
   ((exists typ e, v = pointerTo typ e) \/
    forall collectGoValues,
      Decode'' d w pick v vals argument collectGoValues = mkOutcome None d w v)).
Proof.
  unfold Decode.
  destruct (bool_decide (Value_Kind (ValueOf v) = reflect.Ptr)) eqn:Ek; cbn [negb orb].
  - apply bool_decide_eq_true in Ek.
    destruct (Value_IsNil (ValueOf v)) eqn:En.
    + left. split; [by right | done].
    + right. split; [done|]. split; [done|].
      destruct (Value_Elem (ValueOf v)) as [[typ e]|] eqn:Ee.
      * left. exists typ, e. by apply Value_Elem_Some.
      * by right.
  - apply bool_decide_eq_false in Ek. left. split; [by left | done].
Qed.

Lemma delete_miss {A : Type} (l : list A) (i : nat) : l !! i = None -> delete i l = l.
Proof.
  revert i. induction l as [|x l IH]; intros [|i] Hi; try done.
  cbn in *. by rewrite IH.
Qed.

(** X3. The pool of a decode call with a valid target. The context
    handed to the traversal is the one [Get] gave (a pooled one, taken out
    of the pool, or a new one), with the inputs of this call stored in it,
    [dm] cut to length 0 and, on a struct target, the first sink. The
    context put back is the one the traversal returns, with its errors
    taken out when there are any and [dmDone] down, and with nothing else
    changed; it goes in front of the contexts that were left in the
    pool. *)
Theorem Decode_pool_accounting (d : Decoder (Arg:=Arg)) (w : sinkStore)
        (pick : option nat) (typ : rtype) (e : value) (vals : Values)
        (argument : Arg) (collectGoValues : list (option loc)) :
  let o := Decode'' d w pick (pointerTo typ e) vals argument collectGoValues in
  let taken := default newContext (pick ≫= fun i => dataPool d !! i) in
  let left := match pick with
              | Some i => delete i (dataPool d)
              | None => dataPool d
              end in
  let handed := prepared timeType d pick typ vals argument collectGoValues in
  let after := (traversed'' d w pick typ e vals argument collectGoValues).1.1 in
  handed = mkDecoder (namespace taken) vals argument [] (dmDone taken) (errs taken)
                     (if structTarget timeType typ
                      then match collectGoValues with
                           | g :: _ => g
                           | [] => goValues taken
                           end
                      else goValues taken) /\
  traversed'' d w pick typ e vals argument collectGoValues =
    (if structTarget timeType typ
     then traverseStruct d handed w e typ ""
     else setFieldByType d handed w (typ, e) false "" 0%Z) /\
  dataPool (out_decoder o) =
    mkDecoder (namespace after) (values after) (decodeFuncArgument after) (dm after)
              false
              (if (0 <? lenErrs (errs after))%nat then None else errs after)
              (goValues after) :: left.
Proof.
  intros o taken left handed after.
  assert (forall s, substring 0 0 s = "") as Hsub by by intros [].
  assert (Pool_Get (dataPool d) pick = (taken, left)) as Hget.
  { unfold Pool_Get, taken, left. destruct pick as [i|]; cbn; [|done].
    destruct (dataPool d !! i) as [x|] eqn:Hi; cbn; [done|].
    by rewrite (delete_miss _ _ Hi). }
  assert (handed = mkDecoder (namespace taken) vals argument [] (dmDone taken) (errs taken)
                     (if structTarget timeType typ
                      then match collectGoValues with
                           | g :: _ => g
                           | [] => goValues taken
                           end
                      else goValues taken)) as Hhanded.
  { unfold handed, prepared, acquire. rewrite Hget. cbn.
    destruct (structTarget timeType typ); [|done]. by destruct collectGoValues. }
  split; [exact Hhanded|]. split.
  - unfold traversed. cbv zeta. fold handed. by rewrite !Hsub.
  - unfold o. rewrite Decode_valid. cbn [out_decoder]. unfold withPool, Pool_Put.
    cbn [dataPool]. fold after. unfold acquire. rewrite Hget. cbn [snd]. f_equal.
    unfold release. destruct (errs after) as [m|]; cbn [lenErrs]; [|done].
    by destruct (0 <? size m)%nat.
Qed.

Lemma Decode_pool_ready (d : Decoder (Arg:=Arg)) (w : sinkStore) (pick : option nat)
      (v : iface) (vals : Values) (argument : Arg) (collectGoValues : list (option loc)) :
  pool_ready d ->
  pool_ready (out_decoder (Decode'' d w pick v vals argument collectGoValues)).
Proof.
  intros Hready.
  destruct (Decode_cases d w pick v vals argument)
    as [[_ ->] | (_ & _ & [(typ & e & ->) | ->])]; try done.
  rewrite Decode_valid. cbn [out_decoder]. unfold pool_ready, withPool, Pool_Put.
  cbn [dataPool]. constructor.
  - split; [apply release_errs|]. unfold release.
    destruct (errs _) as [m|]; [|done]. by destruct (0 <? size m)%nat.
  - unfold acquire.
    pose proof (Pool_Get_Forall (fun dec => lenErrs (errs dec) = 0%nat /\ dmDone dec = false)
                  (dataPool d) pick (conj eq_refl eq_refl) Hready) as [_ Hrest].
    by destruct (Pool_Get (dataPool d) pick).
Qed.

(** X5. On every decoder a program can hold (made by [NewDecoder] and any
    sequence of setters, registrations and decode calls, valid or not,
    with any traversal), every pooled context carries no errors and has
    [dmDone] down; so the context a decode call hands to the traversal
    starts without errors and with [dmDone] down. *)
Theorem reachable_pool_ready (d : Decoder (Arg:=Arg)) :
  reachable' d ->
  pool_ready d /\
  forall pick typ vals argument collectGoValues,
    let dec := prepared timeType d pick typ vals argument collectGoValues in
    lenErrs (errs dec) = 0%nat /\ dmDone dec = false.
Proof.
  intros Hreach.
  assert (pool_ready d) as Hready.
  { induction Hreach; try done; [constructor | by apply Decode_pool_ready]. }
  split; [exact Hready|].
  intros pick typ vals argument collectGoValues dec. unfold dec, prepared, acquire.
  pose proof (Pool_Get_Forall (fun dec => lenErrs (errs dec) = 0%nat /\ dmDone dec = false)
                (dataPool d) pick (conj eq_refl eq_refl) Hready) as [Hget _].
  destruct (Pool_Get (dataPool d) pick) as [dec0 pool]. cbn in *.
  destruct (structTarget timeType typ); [|done]. by destruct collectGoValues.
Qed.

(** X6. Whatever the pooled contexts hold from earlier calls, the context
    handed to the traversal holds the mapping and the argument of this
    call and no index record. *)
Theorem prepared_inputs (d : Decoder (Arg:=Arg)) (pick : option nat) (typ : rtype)
        (vals : Values) (argument : Arg) (collectGoValues : list (option loc)) :
  let dec := prepared timeType d pick typ vals argument collectGoValues in
  values dec = vals /\ decodeFuncArgument dec = argument /\ dm dec = [].
Proof.
  unfold prepared, acquire. destruct (Pool_Get (dataPool d) pick) as [dec pool]. cbn.
  destruct (structTarget timeType typ); [|done]. by destruct collectGoValues.
Qed.

(** X10. The error of [Decode] tells the outcome apart: it is an
    invalid-target error exactly when the target is not a pointer that
    points somewhere, and then it is made of the type of the target; a
    composite error is never empty. *)
Theorem Decode_error_kinds (d : Decoder (Arg:=Arg)) (w : sinkStore)
        (pick : option nat) (v : iface) (vals : Values) (argument : Arg)
        (collectGoValues : list (option loc)) :
  let o := Decode'' d w pick v vals argument collectGoValues in
  ((exists e, out_err o = Some (ErrInvalidDecoder e)) <->
   (Value_Kind (ValueOf v) <> reflect.Ptr \/ Value_IsNil (ValueOf v) = true)) /\
  (forall e, out_err o = Some (ErrInvalidDecoder e) ->
             e = mkInvalidDecoderError (TypeOf v)) /\
  (forall m, out_err o = Some (ErrDecode m) -> (0 < size m)%nat).
Proof.
  intros o.
  assert (forall typ e0,
             out_err (Decode'' d w pick (pointerTo typ e0) vals argument collectGoValues)
             = None \/
             exists m, out_err (Decode'' d w pick (pointerTo typ e0) vals argument
                                         collectGoValues) = Some (ErrDecode m) /\
                       (0 < size m)%nat) as Hvalid.
  { intros typ e0. rewrite Decode_valid. cbn [out_err]. rewrite release_err.
    destruct (errs _) as [m|]; [|by left].
    destruct (0 <? size m)%nat eqn:E; [|by left].
    right. exists m. split; [done|]. by apply Nat.ltb_lt. }
  unfold o.
  destruct (Decode_cases d w pick v vals argument)
    as [[Hinv ->] | (Hk & Hn & [(typ & e0 & ->) | ->])]; cbn [out_err].
  - split; [|split].
    + split; [done|]. intros _. by eexists.
    + by intros e [= <-].
    + by intros m.
  - destruct (Hvalid typ e0) as [-> | (m & -> & Hm)].
    + split; [|split]; [|done..]. split; [by intros [? ?]|].
      intros [Hne | Hnil]; [done | by rewrite Hn in Hnil].
    + split; [|split].
      * split; [by intros [? ?]|]. intros [Hne | Hnil]; [done | by rewrite Hn in Hnil].
      * by intros e.
      * by intros m' [= <-].
  - split; [|split]; [|done..]. split; [by intros [? ?]|].
    intros [Hne | Hnil]; [done | by rewrite Hn in Hnil].
Qed.

(** X11. [Decode] never takes a sink out of a context. With a traversal
    that leaves the sink of its context alone, a call on a struct target
    that passes a sink puts the context back holding it, and a later call
    that passes none and takes that context from the pool hands its
    traversal the sink of the earlier call, whatever its target is. *)
Theorem Decode_sink_outlives_call (d : Decoder (Arg:=Arg)) (w : sinkStore)
        (pick : option nat) (typ : rtype) (e : value) (vals : Values) (argument : Arg)
        (g : option loc) (more : list (option loc)) :
  (forall d0 dec w0 v0 t0 ns0,
      goValues (traverseStruct d0 dec w0 v0 t0 ns0).1.1 = goValues dec) ->
  structTarget timeType typ = true ->
  let o := Decode'' d w pick (pointerTo typ e) vals argument (g :: more) in
  (exists dec rest, dataPool (out_decoder o) = dec :: rest /\ goValues dec = g) /\
  forall typ2 vals2 argument2,
    goValues (prepared timeType (out_decoder o) (Some 0%nat) typ2 vals2 argument2 []) = g.
Proof.
  intros Hkeep Hstruct o.
  assert (exists dec rest, dataPool (out_decoder o) = dec :: rest /\ goValues dec = g)
    as (dec & rest & Hpool & Hg).
  { unfold o. rewrite Decode_valid. cbn [out_decoder]. unfold withPool, Pool_Put.
    cbn [dataPool]. eexists _, _. split; [reflexivity|].
    rewrite release_goValues. unfold traversed. rewrite Hstruct, Hkeep.
    unfold prepared. rewrite Hstruct. reflexivity. }
  split; [by exists dec, rest|].
  intros typ2 vals2 argument2. unfold prepared, acquire, Pool_Get. rewrite Hpool. cbn.
  by destruct (structTarget timeType typ2).
Qed.

(** X12. Of the sinks passed to [Decode] only the first one counts: the
    call does what it does with that sink alone, for any target. *)
Theorem Decode_first_sink_only (d : Decoder (Arg:=Arg)) (w : sinkStore)
        (pick : option nat) (v : iface) (vals : Values) (argument : Arg)
        (g : option loc) (more : list (option loc)) :
  Decode'' d w pick v vals argument (g :: more) = Decode'' d w pick v vals argument [g].
Proof.
  destruct (Decode_cases d w pick v vals argument)
    as [[_ Ho] | (_ & _ & [(typ & e & ->) | Ho])].
  - by rewrite !Ho.
  - by rewrite !Decode_valid.
  - by rewrite !Ho.
Qed.
End DecodeMore.

(** ** Rendering *)

Lemma lastByte_nonempty (s : string) (c : ascii) : lastByte s = Some c -> s <> "".
Proof. by destruct s. Qed.

Lemma firstByte_app (s t : string) (c : ascii) :
  firstByte s = Some c -> firstByte (s +:+ t) = Some c.
Proof. by destruct s. Qed.

Lemma lastByte_app (s t : string) : t <> "" -> lastByte (s +:+ t) = lastByte t.
Proof.
  intros Ht. induction s as [|a s IH]; [done|].
  rewrite append_cons. destruct (s +:+ t) as [|b r] eqn:E.
  - destruct s; [by cbn in E | done].
  - exact IH.
Qed.

Lemma TrimLeft_id (s : string) (c : ascii) :
  firstByte s = Some c -> startsSpace c = false -> TrimLeft s = s.
Proof.
  intros Hfirst Hc. rewrite TrimLeft_unfold.
  destruct (cutSpace s) as [r|] eqn:E; [|done].
  apply cutSpace_Some in E as (p & Hp & ->).
  assert (startsSpace c = true); [|congruence].
  unfold startsSpace. apply existsb_exists. exists p.
  split; [by apply list_elem_of_In|]. apply bool_decide_eq_true.
  pose proof (spaceRunes_nonempty p Hp). by destruct p.
Qed.

Lemma whiteSpace_lastByte (s : string) :
  whiteSpace s -> s <> "" -> exists p, p ∈ spaceRunes /\ lastByte s = lastByte p.
Proof.
  induction 1 as [|p s Hp Hs IH]; [done|]. intros _.
  destruct s as [|a s].
  - exists p. by rewrite append_nil_r.
  - destruct (IH ltac:(done)) as (q & Hq & Hlast). exists q. split; [done|].
    by rewrite lastByte_app.
Qed.

Lemma TrimRight_id (s : string) (c : ascii) :
  lastByte s = Some c -> endsSpace c = false -> TrimRight s = s.
Proof.
  intros Hlast Hc.
  assert (forall t, lastByte t = Some c -> allSpace t = false) as Hno.
  { intros t Ht. destruct (allSpace t) eqn:E; [|done].
    apply allSpace_whiteSpace, whiteSpace_lastByte in E as (p & Hp & Hl);
      [|by eapply lastByte_nonempty].
    assert (endsSpace c = true); [|congruence].
    unfold endsSpace. apply existsb_exists. exists p.
    split; [by apply list_elem_of_In|]. apply bool_decide_eq_true. congruence. }
  induction s as [|a s IH]; [done|]. cbn [TrimRight]. rewrite (Hno _ Hlast).
  destruct s as [|b s]; [done|].
  change (lastByte (String a (String b s))) with (lastByte (String b s)) in Hlast.
  by rewrite (IH Hlast).
Qed.

Lemma Join_lastByte (f : string * string -> string) (order : list (string * string)) :
  order <> [] ->
  (forall e, e ∈ order -> exists c, lastByte (f e) = Some c /\ endsSpace c = false) ->
  exists c, lastByte (Join (f <$> order) nl) = Some c /\ endsSpace c = false.
Proof.
  induction order as [|e order IH]; [done|]. intros _ Hall.
  destruct order as [|e' order].
  - apply Hall. by left.
  - destruct (IH ltac:(done) (fun e0 Hin => Hall e0 (list_elem_of_further _ _ _ Hin)))
      as (c & Hc & Hsp).
    exists c. split; [|done].
    change (Join (f <$> e :: e' :: order) nl)
      with (f e +:+ nl +:+ Join (f <$> e' :: order) nl).
    rewrite lastByte_app.
    + rewrite lastByte_app; [done | by eapply lastByte_nonempty].
    + by destruct (Join (f <$> e' :: order) nl).
Qed.

Lemma Join_fieldNS (fieldNS errorText : string) (order : list (string * string)) :
  order <> [] ->
  exists rest, Join (entryLine fieldNS errorText <$> order) nl = fieldNS +:+ rest.
Proof.
  destruct order as [|e [|e' order]]; [done| |]; intros _.
  - eexists. reflexivity.
  - eexists.
    change (Join (entryLine fieldNS errorText <$> e :: e' :: order) nl)
      with (entryLine fieldNS errorText e +:+ nl +:+
            Join (entryLine fieldNS errorText <$> e' :: order) nl).
    unfold entryLine at 1. by rewrite !append_assoc.
Qed.

(** X7. When the text starts with a byte that no white space rune starts
    with (the first byte of [blank] followed by [fieldNS]) and the line of
    every entry ends in a byte that no white space rune ends in, trimming
    takes nothing away: the rendering of a composite error that is not
    empty is exactly the lines of its entries joined by line feeds, after
    [blank]. *)
Theorem DecodeErrors_Error_exact (blank fieldNS errorText : string)
        (d : DecodeErrors) (out : string) :
  d <> ∅ ->
  (exists c, firstByte (blank +:+ fieldNS) = Some c /\ startsSpace c = false) ->
  (forall k e, d !! k = Some e ->
     exists c, lastByte (entryLine fieldNS errorText (k, e)) = Some c /\
               endsSpace c = false) ->
  DecodeErrors_Error blank fieldNS errorText d out ->
  exists order : list (string * string),
    order ≡ₚ map_to_list d /\
    out = blank +:+ Join (entryLine fieldNS errorText <$> order) nl.
Proof.
  intros Hne (c1 & Hfirst & Hsp1) Hlines (order & Hperm & ->). exists order.
  split; [exact Hperm|].
  assert (order <> []) as Hord.
  { intros ->. apply Permutation_nil_l in Hperm. symmetry in Hperm.
    by apply map_to_list_empty_iff in Hperm. }
  unfold renderIn. rewrite fold_writeEntry, lines_Join by done.
  rewrite <- append_assoc, TrimSpace_nl. unfold TrimSpace.
  destruct (Join_fieldNS fieldNS errorText order Hord) as [rest Hrest].
  destruct (Join_lastByte (entryLine fieldNS errorText) order Hord) as (c2 & Hlast & Hsp2).
  { intros [k e] Hin. apply Hlines. apply elem_of_map_to_list. by rewrite <- Hperm. }
  rewrite (TrimLeft_id _ c1).
  - apply (TrimRight_id _ c2); [|done].
    rewrite lastByte_app; [done | by eapply lastByte_nonempty].
  - rewrite Hrest, <- append_assoc. by apply firstByte_app.
  - done.
Qed.

Lemma DecodeErrors_Error_exact_witness :
  let d : DecodeErrors := {["Age" := "invalid syntax"]} in
  let out := renderIn "" "Field Namespace:" " ERROR:" (map_to_list d) in
  d <> ∅ /\
  exists order : list (string * string),
    order ≡ₚ map_to_list d /\
    out = "" +:+ Join (entryLine "Field Namespace:" " ERROR:" <$> order) nl.
Proof.
  intros d out.
  assert (d <> ∅) as Hne.
  { intros E. assert (d !! "Age" = None) as Hnone by (rewrite E; reflexivity).
    vm_compute in Hnone. discriminate. }
  split; [exact Hne|].
  apply (DecodeErrors_Error_exact "" "Field Namespace:" " ERROR:" d out Hne).
  - exists "F"%char. split; reflexivity.
  - intros k e Hk. unfold d in Hk. apply lookup_singleton_Some in Hk as [<- <-].
    exists "x"%char. split; reflexivity.
  - exists (map_to_list d). split; reflexivity.
Defined.

(** ** The message of an invalid target *)

Lemma prefix_app (p s : string) : String.prefix p (p +:+ s) = true.
Proof.
  induction p as [|a p IH]; [by destruct s|].
  rewrite append_cons. cbn [String.prefix]. by destruct (ascii_dec a a).
Qed.

(** X9. The message of an invalid-target error tells its three cases
    apart: it is [form: Decode(nil)] exactly for no type, it begins with
    [form: Decode(non-pointer ] exactly for a type that is not a pointer,
    and with [form: Decode(nil ] exactly for a pointer type. *)
Theorem InvalidDecoderError_Error_tells (e : InvalidDecoderError) :
  (InvalidDecoderError_Error e = "form: Decode(nil)" <-> Type_ e = None) /\
  (String.prefix "form: Decode(non-pointer " (InvalidDecoderError_Error e) = true <->
   exists T, Type_ e = Some T /\ Kind T <> reflect.Ptr) /\
  (String.prefix "form: Decode(nil " (InvalidDecoderError_Error e) = true <->
   exists T, Type_ e = Some T /\ Kind T = reflect.Ptr).
Proof.
  destruct e as [[T|]]; unfold InvalidDecoderError_Error; cbn [Type_].
  - generalize (TypeString T). intros x.
    destruct (bool_decide (Kind T = reflect.Ptr)) eqn:E; cbn [negb].
    + apply bool_decide_eq_true in E. split; [|split].
      * split; [|done]. intros Heq. cbv [String.append] in Heq. discriminate.
      * split; [|by intros (T' & [= <-] & Hne)].
        intros Heq. vm_compute in Heq. discriminate.
      * split; [by exists T|]. intros _. apply prefix_app.
    + apply bool_decide_eq_false in E. split; [|split].
      * split; [|done]. intros Heq. cbv [String.append] in Heq. discriminate.
      * split; [by exists T|]. intros _. apply prefix_app.
      * split; [|by intros (T' & [= <-] & Hk)].
        intros Heq. vm_compute in Heq. discriminate.
  - split; [|split].
    + done.
    + split; [|by intros (T & ? & _)]. intros Heq. vm_compute in Heq. discriminate.
    + split; [|by intros (T & ? & _)]. intros Heq. vm_compute in Heq. discriminate.
Qed.

(** ** The theorems on decoders at concrete inputs *)

Section ModelledSink.
Context {Arg : Type} `{Inhabited Arg}.
Variable convert : reflect.Kind -> string -> value + string.

Lemma traverseStruct_goValues (d : Decoder (Arg:=Arg)) (dec : decoder (Arg:=Arg))
      (w : sinkStore) (v : value) (t : rtype) (ns : string) :
  goValues (traverseStruct convert d dec w v t ns).1.1 = goValues dec.
Proof.
  unfold traverseStruct.
  pose proof (traverseRecord_sinkFramed convert d t ns v (mkTstate dec w [])) as [Hg _].
  by destruct (traverseRecord convert d t ns v _) as [[v' st'] set].
Qed.
End ModelledSink.

Lemma reachable_pool_ready_witness :
  let d := out_decoder
             (Traverser.DecodeM simpleConvert (SetMaxArraySize NewDecoder 5) ∅ None
                (pointerTo sampleAB (zero sampleAB)) {["A[7]" := ["x"]]} tt []) in
  reachable (Traverser.traverseStruct simpleConvert)
            (Traverser.setFieldByType_entry simpleConvert) Traverser.timeType d /\
  pool_ready d /\ length (dataPool d) = 1%nat.
Proof.
  intros d.
  assert (reachable (Traverser.traverseStruct simpleConvert)
                    (Traverser.setFieldByType_entry simpleConvert) Traverser.timeType d)
    as Hreach.
  { apply reach_Decode, reach_SetMaxArraySize, reach_NewDecoder. }
  split; [exact Hreach|]. split; [|reflexivity].
  exact (proj1 (reachable_pool_ready _ _ _ d Hreach)).
Defined.

Lemma Decode_sink_outlives_call_witness :
  let o := Traverser.DecodeM simpleConvert NewDecoder ∅ None
             (pointerTo sampleUser (zero sampleUser)) {["Name" := ["alice"]]} tt
             [Some 1%positive] in
  structTarget Traverser.timeType sampleUser = true /\
  goValues (prepared Traverser.timeType (out_decoder o) (Some 0%nat) TString
                     {["" := ["x"]]} tt []) = Some 1%positive.
Proof.
  intros o.
  assert (structTarget Traverser.timeType sampleUser = true) as Hs by reflexivity.
  split; [exact Hs|].
  destruct (Decode_sink_outlives_call (Traverser.traverseStruct simpleConvert)
              (Traverser.setFieldByType_entry simpleConvert) Traverser.timeType
              NewDecoder ∅ None sampleUser (zero sampleUser) {["Name" := ["alice"]]} tt
              (Some 1%positive) []
              (fun d0 dec w0 v0 t0 ns0 =>
                 traverseStruct_goValues simpleConvert d0 dec w0 v0 t0 ns0) Hs)
    as [_ Hlater].
  apply Hlater.
Defined.

Lemma RegisterFunc_lookup_witness :
  let d := RegisterFunc (NewDecoder (Arg:=unit)) sampleFunc [sampleUser; TInt] in
  (sampleUser ∈ [sampleUser; TInt]) /\ (TString ∉ [sampleUser; TInt]) /\
  customTypeFunc d sampleUser = Some sampleFunc /\
  customTypeFunc d TString = None.
Proof.
  intros d.
  assert (sampleUser ∈ [sampleUser; TInt]) as Hin.
  { by left. }
  assert (TString ∉ [sampleUser; TInt]) as Hnin.
  { intros Hx. apply existsb_rtype in Hx. vm_compute in Hx. discriminate. }
  split; [exact Hin|]. split; [exact Hnin|].
  split.
  - exact (proj1 (RegisterFunc_lookup NewDecoder sampleFunc [sampleUser; TInt] sampleUser)
                 Hin).
  - exact (proj1 (proj2 (RegisterFunc_lookup NewDecoder sampleFunc [sampleUser; TInt]
                                             TString)) Hnin).
Defined.

Lemma InvalidDecoderError_Error_tells_witness :
  String.prefix "form: Decode(nil "
    (InvalidDecoderError_Error (mkInvalidDecoderError (Some (TPtr sampleUser)))) = true /\
  String.prefix "form: Decode(non-pointer "
    (InvalidDecoderError_Error (mkInvalidDecoderError (Some sampleUser))) = true.
Proof.
  split.
  - apply (proj2 (proj2 (InvalidDecoderError_Error_tells
                           (mkInvalidDecoderError (Some (TPtr sampleUser)))))).
    exists (TPtr sampleUser). split; reflexivity.
  - apply (proj1 (proj2 (InvalidDecoderError_Error_tells
                           (mkInvalidDecoderError (Some sampleUser))))).
    exists sampleUser. split; [reflexivity | discriminate].
Defined.

Lemma Decode_error_kinds_witness :
  let o := Traverser.DecodeM simpleConvert NewDecoder ∅ None
             (pointerTo sampleAB (zero sampleAB)) {["A[10000]" := ["x"]]} tt [] in
  (exists m, out_err o = Some (ErrDecode m) /\ (0 < size m)%nat) /\
  exists e, out_err (Traverser.DecodeM simpleConvert NewDecoder ∅ None None
                       {["A[10000]" := ["x"]]} tt []) = Some (ErrInvalidDecoder e).
Proof.
  intros o. split.
  - destruct (out_err o) as [[e|m]|] eqn:E; try (vm_compute in E; discriminate).
    exists m. split; [reflexivity|].
    apply (proj2 (proj2 (Decode_error_kinds (Traverser.traverseStruct simpleConvert)
             (Traverser.setFieldByType_entry simpleConvert) Traverser.timeType
             NewDecoder ∅ None (pointerTo sampleAB (zero sampleAB))
             {["A[10000]" := ["x"]]} tt [])) m).
    exact E.
  - apply (proj1 (Decode_error_kinds (Traverser.traverseStruct simpleConvert)
             (Traverser.setFieldByType_entry simpleConvert) Traverser.timeType
             NewDecoder ∅ None None {["A[10000]" := ["x"]]} tt [])).
    left. discriminate.
Defined.
